(** * Gemini voice studio: the audio pipeline of [App.tsx] and
      [AudioVisualizer.tsx], embedded and verified.

    The development follows the source files:
    - [types.ts]: [VoiceName], [GeneratedAudio];
    - [App.tsx]: [getAudioContext], [stopPlayback], [playAudio],
      [handleDownload] (the WAV export);
    - [components/AudioVisualizer.tsx]: the [draw] loop of the effect.

    JavaScript numbers.  The samples of an [AudioBuffer] are 32-bit floats
    read as doubles.  Every arithmetic step of the export on such a value
    ([Math.min], [Math.max], [0.5 + s < 0], [s * 32768], [s * 32767] and
    [|0]) is exact in double precision: a float32 has a 24-bit significand,
    so its product with a 15-bit integer has at most 39 significant bits,
    and the sign of [0.5 + s] survives rounding.  Finite numbers are
    therefore modelled by rationals, next to NaN and the two infinities. *)

From Stdlib Require Import ZArith QArith Qround Lia Bool.
From stdpp Require Import base decidable option list strings.

Local Open Scope Z_scope.

(** ** JavaScript numbers and the operators the source uses *)

Module JS.

Inductive number : Type :=
| Fin (q : Q)
| NaN
| PosInf
| NegInf.

Definition of_Z (z : Z) : number := Fin (inject_Z z).

(** [a < b] of JavaScript: false as soon as one side is NaN. *)
Definition lt (a b : number) : bool :=
  match a, b with
  | NaN, _ | _, NaN => false
  | Fin p, Fin q => negb (Qle_bool q p)
  | Fin _, PosInf => true
  | Fin _, NegInf => false
  | PosInf, _ => false
  | NegInf, NegInf => false
  | NegInf, _ => true
  end.

(** [Math.min(a, b)] and [Math.max(a, b)]: NaN is contagious. *)
Definition Math_min (a b : number) : number :=
  match a, b with
  | NaN, _ | _, NaN => NaN
  | _, _ => if lt b a then b else a
  end.

Definition Math_max (a b : number) : number :=
  match a, b with
  | NaN, _ | _, NaN => NaN
  | _, _ => if lt a b then b else a
  end.

(** [a + b]. *)
Definition add (a b : number) : number :=
  match a, b with
  | NaN, _ | _, NaN => NaN
  | Fin p, Fin q => Fin (p + q)
  | PosInf, NegInf | NegInf, PosInf => NaN
  | PosInf, _ | _, PosInf => PosInf
  | NegInf, _ | _, NegInf => NegInf
  end.

(** Sign of a rational as a comparison with zero. *)
Definition Qsign (q : Q) : comparison := (Qnum q ?= 0).

(** [a * b]. *)
Definition mul (a b : number) : number :=
  match a, b with
  | NaN, _ | _, NaN => NaN
  | Fin p, Fin q => Fin (p * q)
  | Fin p, PosInf | PosInf, Fin p =>
      match Qsign p with Eq => NaN | Gt => PosInf | Lt => NegInf end
  | Fin p, NegInf | NegInf, Fin p =>
      match Qsign p with Eq => NaN | Gt => NegInf | Lt => PosInf end
  | PosInf, PosInf | NegInf, NegInf => PosInf
  | PosInf, NegInf | NegInf, PosInf => NegInf
  end.

(** Truncation of a rational toward zero. *)
Definition Qtrunc (q : Q) : Z := Z.quot (Qnum q) (Zpos (Qden q)).

(** Wrap-around of an integer into the signed 32-bit range. *)
Definition wrap32 (z : Z) : Z := (z + 2 ^ 31) mod 2 ^ 32 - 2 ^ 31.

(** [x | 0]: ToInt32.  NaN and the infinities become 0. *)
Definition ToInt32 (x : number) : Z :=
  match x with
  | Fin q => wrap32 (Qtrunc q)
  | _ => 0
  end.

End JS.

(** ** Bytes, little-endian fields and the [DataView] writes *)

(** Byte [k] of an integer, two's complement for negative ones. *)
Definition byte_of (v : Z) (k : nat) : Z :=
  Z.land (Z.shiftr v (8 * Z.of_nat k)) 255.

(** The [n] little-endian bytes of [v]: what [setUint16], [setInt16] and
    [setUint32] store with [littleEndian = true]; the value is taken
    modulo [2 ^ (8 * n)]. *)
Definition le_bytes (n : nat) (v : Z) : list Z :=
  map (byte_of v) (seq 0 n).

(** Reading a little-endian unsigned field back. *)
Fixpoint le_value (bs : list Z) : Z :=
  match bs with
  | [] => 0
  | b :: bs' => b + 256 * le_value bs'
  end.

(** Reading a little-endian signed 16-bit field back ([getInt16]). *)
Definition le_int16 (bs : list Z) : Z :=
  let u := le_value bs in if decide (u < 32768) then u else u - 65536.

Inductive exn : Type :=
| RangeError
| TypeError
| InvalidStateError.

(** Result of running a piece of the source: it returns, it throws, or the
    model ran out of loop fuel. *)
Inductive outcome (A : Type) : Type :=
| Return (a : A)
| Throw (e : exn)
| OutOfFuel.
Arguments Return {A} a.
Arguments Throw {A} e.
Arguments OutOfFuel {A}.

(** [view.setUintN(byteOffset, v, true)] on the bytes of the underlying
    [ArrayBuffer]: a write that does not fit throws [RangeError]. *)
Definition DataView_set (n byteOffset : nat) (v : Z) (view : list Z)
  : outcome (list Z) :=
  if decide (byteOffset + n <= length view)%nat
  then Return (list_inserts byteOffset (le_bytes n v) view)
  else Throw RangeError.

(** ** [types.ts] *)

Inductive VoiceName : Type := Puck | Charon | Kore | Fenrir | Zephyr.

(** The string value of each enum member. *)
Definition VoiceName_value (v : VoiceName) : string :=
  match v with
  | Puck => "Puck"
  | Charon => "Charon"
  | Kore => "Kore"
  | Fenrir => "Fenrir"
  | Zephyr => "Zephyr"
  end.

(** The Web Audio [AudioBuffer], as far as the source reads it:
    [sampleRate], [length] (sample frames per channel), and the channel
    arrays behind [numberOfChannels] and [getChannelData]. *)
Module AudioBuffer.

Record t : Type := mk {
  sampleRate : Z;
  length : nat;
  channelData : list (list JS.number)
}.

Definition numberOfChannels (b : t) : nat := List.length (channelData b).

Definition getChannelData (b : t) (i : nat) : option (list JS.number) :=
  channelData b !! i.

(** Every channel array of a browser-made buffer has [length] entries. *)
Definition well_formed (b : t) : Prop :=
  Forall (fun ch => List.length ch = length b) (channelData b).

End AudioBuffer.

Record GeneratedAudio : Type := {
  id : string;
  text : string;
  voice : VoiceName;
  timestamp : Z;
  audioBuffer : option AudioBuffer.t;
  duration : JS.number
}.

(** ** [handleDownload]: the WAV export of [App.tsx] *)

Module Wav.

(** The mutable locals of [handleDownload] that the writes share: the bytes
    behind [view], and the counters [pos] and [offset].  [pos] is advanced
    by the header helpers [setUint16]/[setUint32] and is then the index of
    the [while] loop. *)
Record locals : Type := {
  view : list Z;
  pos : nat;
  offset : nat
}.

Definition W (A : Type) : Type := locals -> outcome (A * locals).

Definition ret {A} (a : A) : W A := fun s => Return (a, s).

Definition bind {A B} (m : W A) (k : A -> W B) : W B :=
  fun s =>
    match m s with
    | Return (a, s') => k a s'
    | Throw e => Throw e
    | OutOfFuel => OutOfFuel
    end.

Notation "'let!' x ':=' m 'in' k" := (bind m (fun x => k))
  (at level 10, x name, k at level 200).
Notation "m >> k" := (bind m (fun _ => k))
  (at level 100, right associativity).

Definition get_pos : W nat := fun s => Return (pos s, s).

(** [function setUint16(data) { view.setUint16(pos, data, true); pos += 2; }] *)
Definition setUint16 (data : Z) : W unit :=
  fun s =>
    match DataView_set 2 (pos s) data (view s) with
    | Return v => Return (tt, {| view := v; pos := pos s + 2; offset := offset s |})
    | Throw e => Throw e
    | OutOfFuel => OutOfFuel
    end.

(** [function setUint32(data) { view.setUint32(pos, data, true); pos += 4; }] *)
Definition setUint32 (data : Z) : W unit :=
  fun s =>
    match DataView_set 4 (pos s) data (view s) with
    | Return v => Return (tt, {| view := v; pos := pos s + 4; offset := offset s |})
    | Throw e => Throw e
    | OutOfFuel => OutOfFuel
    end.

(** Lines 169-183: the header writes, in source order. *)
Definition write_header (buffer : AudioBuffer.t) (numOfChan length : Z) : W unit :=
  setUint32 0x46464952 >>
  setUint32 (length - 8) >>
  setUint32 0x45564157 >>
  setUint32 0x20746d66 >>
  setUint32 16 >>
  setUint16 1 >>
  setUint16 numOfChan >>
  setUint32 (AudioBuffer.sampleRate buffer) >>
  setUint32 (AudioBuffer.sampleRate buffer * 2 * numOfChan) >>
  setUint16 (numOfChan * 2) >>
  setUint16 16 >>
  setUint32 0x61746164 >>
  let! p := get_pos in
  setUint32 (length - Z.of_nat p - 4).

(** Line 191: [Math.max(-1, Math.min(1, x))]. *)
Definition clamp (x : JS.number) : JS.number :=
  JS.Math_max (JS.of_Z (-1)) (JS.Math_min (JS.of_Z 1) x).

(** Line 192: [(0.5 + sample < 0 ? sample * 32768 : sample * 32767)|0].
    The test is [(0.5 + sample) < 0]: [+] binds tighter than [<]. *)
Definition scale (sample : JS.number) : Z :=
  JS.ToInt32
    (if JS.lt (JS.add (JS.Fin (1 # 2)) sample) (JS.of_Z 0)
     then JS.mul sample (JS.of_Z 32768)
     else JS.mul sample (JS.of_Z 32767)).

(** The 16-bit integer stored for one sample (lines 191-192). *)
Definition sample_int16 (x : JS.number) : Z := scale (clamp x).

(** [channels[i][pos]]: reading past the end of a typed array gives
    [undefined], which [Math.min] turns into NaN; indexing a missing
    channel throws. *)
Definition read_sample (channels : list (list JS.number)) (i p : nat)
  : outcome JS.number :=
  match channels !! i with
  | Some ch => Return (default JS.NaN (ch !! p))
  | None => Throw TypeError
  end.

(** Lines 191-194: the body of the [for] loop for channel [i]. *)
Definition write_sample (channels : list (list JS.number)) (i : nat) : W unit :=
  fun s =>
    match read_sample channels i (pos s) with
    | Return x =>
        match DataView_set 2 (44 + offset s) (sample_int16 x) (view s) with
        | Return v =>
            Return (tt, {| view := v; pos := pos s; offset := offset s + 2 |})
        | Throw e => Throw e
        | OutOfFuel => OutOfFuel
        end
    | Throw e => Throw e
    | OutOfFuel => OutOfFuel
    end.

(** Line 190: [for(i = 0; i < numOfChan; i++)], with [count] iterations
    left and the loop variable at [i]. *)
Fixpoint interleave (channels : list (list JS.number)) (count i : nat) : W unit :=
  match count with
  | O => ret tt
  | S count' => write_sample channels i >> interleave channels count' (S i)
  end.

Definition incr_pos : W unit :=
  fun s => Return (tt, {| view := view s; pos := pos s + 1; offset := offset s |}).

(** Lines 189-197: [while(pos < buffer.length) { for ...; pos++ }]. *)
Fixpoint write_frames (fuel : nat) (buffer : AudioBuffer.t)
    (channels : list (list JS.number)) (numOfChan : nat) : W unit :=
  fun s =>
    if decide (pos s < AudioBuffer.length buffer)%nat then
      match fuel with
      | O => OutOfFuel
      | S fuel' =>
          (interleave channels numOfChan 0 >>
           incr_pos >>
           write_frames fuel' buffer channels numOfChan) s
      end
    else Return (tt, s).

(** Lines 186-187: [channels.push(buffer.getChannelData(i))] for every
    [i < buffer.numberOfChannels]. *)
Definition collect_channels (buffer : AudioBuffer.t) : list (list JS.number) :=
  omap (AudioBuffer.getChannelData buffer)
       (seq 0 (AudioBuffer.numberOfChannels buffer)).

(** Lines 157-197: the bytes of [bufferOut] once the loop is over.  The
    [ArrayBuffer] starts zero-filled.  The loop runs at most
    [buffer.length] times, which is the fuel given. *)
Definition encode (buffer : AudioBuffer.t) : outcome (list Z) :=
  let numOfChan := AudioBuffer.numberOfChannels buffer in
  let length := (AudioBuffer.length buffer * numOfChan * 2 + 44)%nat in
  let s0 := {| view := replicate length 0; pos := 0%nat; offset := 0%nat |} in
  match (write_header buffer (Z.of_nat numOfChan) (Z.of_nat length) >>
         write_frames (AudioBuffer.length buffer) buffer
                      (collect_channels buffer) numOfChan) s0 with
  | Return (_, s) => Return (view s)
  | Throw e => Throw e
  | OutOfFuel => OutOfFuel
  end.

End Wav.

(** What the click on the download link hands to the browser: the blob,
    its MIME type and the [download] file name. *)
Record Download : Type := {
  blob : list Z;
  blob_type : string;
  file_name : string
}.

(** [handleDownload(item)]: [None] is the bare [return] of line 154. *)
Definition handleDownload (item : GeneratedAudio) : outcome (option Download) :=
  match audioBuffer item with
  | None => Return None
  | Some buffer =>
      match Wav.encode buffer with
      | Return bufferOut =>
          Return (Some {| blob := bufferOut;
                          blob_type := "audio/wav";
                          file_name := "gemini-voice-" +:+ VoiceName_value (voice item)
                                       +:+ "-" +:+ id item +:+ ".wav" |})
      | Throw e => Throw e
      | OutOfFuel => OutOfFuel
      end
  end.

(** ** The layout of the export, stated on lists *)

(** The unsigned little-endian field of [n] bytes at offset [off]. *)
Definition field (bytes : list Z) (off n : nat) : Z :=
  le_value (take n (drop off bytes)).

(** The signed 16-bit sample stored at index [k] of the data chunk. *)
Definition stored_sample (bytes : list Z) (k : nat) : Z :=
  le_int16 (take 2 (drop (44 + 2 * k) bytes)).

Module WavLayout.

(** The 44 header bytes, field by field. *)
Definition header (rate : Z) (numOfChan length : Z) : list Z :=
  le_bytes 4 0x46464952 ++ le_bytes 4 (length - 8) ++ le_bytes 4 0x45564157 ++
  le_bytes 4 0x20746d66 ++ le_bytes 4 16 ++ le_bytes 2 1 ++
  le_bytes 2 numOfChan ++ le_bytes 4 rate ++
  le_bytes 4 (rate * 2 * numOfChan) ++ le_bytes 2 (numOfChan * 2) ++
  le_bytes 2 16 ++ le_bytes 4 0x61746164 ++ le_bytes 4 (length - 40 - 4).

(** The bytes of sample frame [p]: one 16-bit value per channel, in
    channel order. *)
Definition frame (channels : list (list JS.number)) (p : nat) : list Z :=
  flat_map (fun ch => le_bytes 2 (Wav.sample_int16 (default JS.NaN (ch !! p))))
           channels.

(** The data chunk the loop leaves behind: the frames from index 44 on,
    written from the start of the chunk, and zeros after them. *)
Definition data (b : AudioBuffer.t) : list Z :=
  let L := AudioBuffer.length b in
  let C := AudioBuffer.numberOfChannels b in
  flat_map (frame (AudioBuffer.channelData b)) (seq 44 (L - 44))
  ++ replicate (2 * C * Nat.min 44 L) 0.

Definition file (b : AudioBuffer.t) : list Z :=
  let L := AudioBuffer.length b in
  let C := AudioBuffer.numberOfChannels b in
  header (AudioBuffer.sampleRate b) (Z.of_nat C) (Z.of_nat (L * C * 2 + 44))
  ++ data b.

End WavLayout.

(** The conversion as the specification words it: the sign of the sample
    selects the scale.  It is compared with [Wav.sample_int16] below. *)
Definition claimed_sample_int16 (x : JS.number) : Z :=
  JS.ToInt32
    (if JS.lt (Wav.clamp x) (JS.of_Z 0)
     then JS.mul (Wav.clamp x) (JS.of_Z 32768)
     else JS.mul (Wav.clamp x) (JS.of_Z 32767)).

(** A one-channel buffer holding the given samples. *)
Definition mono (rate : Z) (samples : list JS.number) : AudioBuffer.t :=
  AudioBuffer.mk rate (List.length samples) [samples].

(** A buffer of [c] channels of [n] zero samples. *)
Definition silence (rate : Z) (c n : nat) : AudioBuffer.t :=
  AudioBuffer.mk rate n (replicate c (replicate n (JS.of_Z 0))).

(** ** Playback: the refs and state of [App] and the Web Audio graph *)

Inductive AudioContextState : Type := suspended | running | closed.

(** The Web Audio calls of [App.tsx], in the order they are issued. *)
Inductive call : Type :=
| NewAudioContext
| Resume
| CreateBufferSource (n : nat)
| SourceConnect (n : nat)
| SourceStart (n : nat)
| SourceStop (n : nat)
| SourceDisconnect (n : nat).

(** An [AudioBufferSourceNode]: its [buffer], whether it is connected to
    the analyser, whether [onended] is set, and where it is in its life:
    [start()] called, [stop()] called, the [ended] event dispatched. *)
Record SourceNode : Type := {
  buffer : option AudioBuffer.t;
  connected : bool;
  onended : bool;
  started : bool;
  stopped : bool;
  ended : bool
}.

(** A source is playing between [start()] and the first of [stop()] and
    the end of its buffer. *)
Definition playing (nd : SourceNode) : bool :=
  started nd && negb (stopped nd) && negb (ended nd).

(** The component state ([useState]), the refs ([useRef]) and the source
    nodes created so far; a node is named by its index in [nodes]. *)
Record App : Type := {
  currentAudioId : option string;
  isPlaying : bool;
  audioContextRef : option AudioContextState;
  analyserRef : bool;
  gainNodeRef : bool;
  sourceNodeRef : option nat;
  nodes : list SourceNode;
  calls : list call
}.

Definition initial : App :=
  {| currentAudioId := None; isPlaying := false; audioContextRef := None;
     analyserRef := false; gainNodeRef := false; sourceNodeRef := None;
     nodes := []; calls := [] |}.

Definition setCurrentAudioId (v : option string) (st : App) : App :=
  {| currentAudioId := v; isPlaying := isPlaying st;
     audioContextRef := audioContextRef st; analyserRef := analyserRef st;
     gainNodeRef := gainNodeRef st; sourceNodeRef := sourceNodeRef st;
     nodes := nodes st; calls := calls st |}.

Definition setIsPlaying (v : bool) (st : App) : App :=
  {| currentAudioId := currentAudioId st; isPlaying := v;
     audioContextRef := audioContextRef st; analyserRef := analyserRef st;
     gainNodeRef := gainNodeRef st; sourceNodeRef := sourceNodeRef st;
     nodes := nodes st; calls := calls st |}.

Definition set_sourceNodeRef (v : option nat) (st : App) : App :=
  {| currentAudioId := currentAudioId st; isPlaying := isPlaying st;
     audioContextRef := audioContextRef st; analyserRef := analyserRef st;
     gainNodeRef := gainNodeRef st; sourceNodeRef := v;
     nodes := nodes st; calls := calls st |}.

Definition set_context (c : option AudioContextState) (a g : bool) (st : App) : App :=
  {| currentAudioId := currentAudioId st; isPlaying := isPlaying st;
     audioContextRef := c; analyserRef := a; gainNodeRef := g;
     sourceNodeRef := sourceNodeRef st; nodes := nodes st; calls := calls st |}.

Definition set_nodes (ns : list SourceNode) (st : App) : App :=
  {| currentAudioId := currentAudioId st; isPlaying := isPlaying st;
     audioContextRef := audioContextRef st; analyserRef := analyserRef st;
     gainNodeRef := gainNodeRef st; sourceNodeRef := sourceNodeRef st;
     nodes := ns; calls := calls st |}.

Definition log (c : call) (st : App) : App :=
  {| currentAudioId := currentAudioId st; isPlaying := isPlaying st;
     audioContextRef := audioContextRef st; analyserRef := analyserRef st;
     gainNodeRef := gainNodeRef st; sourceNodeRef := sourceNodeRef st;
     nodes := nodes st; calls := calls st ++ [c] |}.

(** Updating the node [n] in place. *)
Definition update_node (n : nat) (f : SourceNode -> SourceNode) (st : App) : App :=
  set_nodes (alter f n (nodes st)) st.

Definition mark_stopped (nd : SourceNode) : SourceNode :=
  {| buffer := buffer nd; connected := connected nd; onended := onended nd;
     started := started nd; stopped := true; ended := ended nd |}.

Definition mark_disconnected (nd : SourceNode) : SourceNode :=
  {| buffer := buffer nd; connected := false; onended := onended nd;
     started := started nd; stopped := stopped nd; ended := ended nd |}.

Definition mark_ended (nd : SourceNode) : SourceNode :=
  {| buffer := buffer nd; connected := connected nd; onended := onended nd;
     started := started nd; stopped := stopped nd; ended := true |}.

(** [source.stop()]: [InvalidStateError] on a node that was never
    started. *)
Definition source_stop (n : nat) (st : App) : outcome App :=
  match nodes st !! n with
  | Some nd =>
      if started nd
      then Return (log (SourceStop n) (update_node n mark_stopped st))
      else Throw InvalidStateError
  | None => Throw TypeError
  end.

(** [source.disconnect()]. *)
Definition source_disconnect (n : nat) (st : App) : App :=
  log (SourceDisconnect n) (update_node n mark_disconnected st).

(** Lines 50-74.  A context made inside a click handler starts [running];
    [resume()] is taken to settle at once. *)
Definition getAudioContext (st : App) : App :=
  let st1 :=
    match audioContextRef st with
    | None => log NewAudioContext (set_context (Some running) true true st)
    | Some _ => st
    end in
  match audioContextRef st1 with
  | Some suspended =>
      log Resume (set_context (Some running) (analyserRef st1) (gainNodeRef st1) st1)
  | _ => st1
  end.

(** Lines 76-88.  The [try] swallows whatever [stop()] throws, and then
    [disconnect()] is skipped. *)
Definition stopPlayback (st : App) : App :=
  let st1 :=
    match sourceNodeRef st with
    | Some n =>
        let st' :=
          match source_stop n st with
          | Return s => source_disconnect n s
          | _ => st
          end in
        set_sourceNodeRef None st'
    | None => st
    end in
  setCurrentAudioId None (setIsPlaying false st1).

(** Lines 103-118: the node is created, given its buffer, connected to the
    analyser when there is one, given its [onended] handler and
    started. *)
Definition new_source (buf : AudioBuffer.t) (st : App) : App :=
  let n := length (nodes st) in
  let st1 := log (CreateBufferSource n)
                 (set_nodes (nodes st ++ [{| buffer := Some buf; connected := false;
                                             onended := false; started := false;
                                             stopped := false; ended := false |}]) st) in
  let st2 :=
    if analyserRef st1
    then log (SourceConnect n)
             (update_node n (fun nd =>
                {| buffer := buffer nd; connected := true; onended := onended nd;
                   started := started nd; stopped := stopped nd; ended := ended nd |}) st1)
    else st1 in
  let st3 := update_node n (fun nd =>
                {| buffer := buffer nd; connected := connected nd; onended := true;
                   started := started nd; stopped := stopped nd; ended := ended nd |}) st2 in
  let st4 := log (SourceStart n)
                 (update_node n (fun nd =>
                    {| buffer := buffer nd; connected := connected nd;
                       onended := onended nd; started := true;
                       stopped := stopped nd; ended := ended nd |}) st3) in
  set_sourceNodeRef (Some n) st4.

(** Lines 97-118 of [playAudio], the path of an item that is not the one
    playing: the specification's [start]. *)
Definition startPlayback (item : GeneratedAudio) (st : App) : App :=
  let st1 := stopPlayback st in
  let st2 := getAudioContext st1 in
  match audioBuffer item with
  | None => st2
  | Some buf =>
      setIsPlaying true (setCurrentAudioId (Some (id item)) (new_source buf st2))
  end.

(** Lines 90-119.  The function is [async] but never awaits: it runs to
    its end within the click.  [currentAudioId] and [isPlaying] are the
    values of the render the handler belongs to. *)
Definition playAudio (item : GeneratedAudio) (st : App) : App :=
  if bool_decide (currentAudioId st = Some (id item)) && isPlaying st
  then stopPlayback st
  else startPlayback item st.

(** The [ended] event of source [n], dispatched by the audio subsystem once
    per started node, when its buffer runs out or after [stop()]; it runs
    the handler of lines 110-113 when one is set. *)
Definition source_ended (n : nat) (st : App) : App :=
  match nodes st !! n with
  | Some nd =>
      if started nd && negb (ended nd) then
        let st1 := update_node n mark_ended st in
        if onended nd
        then setCurrentAudioId None (setIsPlaying false st1)
        else st1
      else st
  | None => st
  end.

(** What can happen to the component between two renders. *)
Inductive action : Type :=
| Toggle (item : GeneratedAudio)
| Start (item : GeneratedAudio)
| Stop
| Ended (n : nat)
| ContextState (s : AudioContextState).

Definition step (a : action) (st : App) : App :=
  match a with
  | Toggle item => playAudio item st
  | Start item => startPlayback item st
  | Stop => stopPlayback st
  | Ended n => source_ended n st
  | ContextState s =>
      match audioContextRef st with
      | Some _ => set_context (Some s) (analyserRef st) (gainNodeRef st) st
      | None => st
      end
  end.

Definition run (acts : list action) (st : App) : App :=
  fold_left (fun s a => step a s) acts st.

(** Whether the source of index [n] is playing. *)
Definition node_playing (st : App) (n : nat) : bool :=
  match nodes st !! n with
  | Some nd => playing nd
  | None => false
  end.

(** The indices of the sources that are playing. *)
Definition playing_nodes (st : App) : list nat :=
  List.filter (node_playing st) (seq 0 (length (nodes st))).

(** The item is the one shown as playing. *)
Definition active (item : GeneratedAudio) (st : App) : bool :=
  bool_decide (currentAudioId st = Some (id item)) && isPlaying st.

(** The source [n] has reached its terminal state. *)
Definition halted (n : nat) (st : App) : Prop :=
  exists nd, nodes st !! n = Some nd /\ started nd = true /\ playing nd = false.

(** ** [AudioVisualizer.tsx]: the effect and its [draw] loop *)

Module Visualizer.

(** What the canvas shows. *)
Inductive picture : Type :=
| Blank
| Bars (data : list Z)
| FlatLine.

(** [animationRef.current], the frame request the browser still holds
    (the effect never has two outstanding), the next request id (ids are
    non-zero), the canvas, and the number of [draw] calls so far. *)
Record t : Type := {
  animationRef : option nat;
  pending : option nat;
  next_request : nat;
  canvas : picture;
  draws : nat
}.

Definition initial : t :=
  {| animationRef := None; pending := None; next_request := 1;
     canvas := Blank; draws := 0 |}.

(** [animationRef.current = requestAnimationFrame(draw)]. *)
Definition requestAnimationFrame (v : t) : t :=
  {| animationRef := Some (next_request v); pending := Some (next_request v);
     next_request := S (next_request v); canvas := canvas v; draws := draws v |}.

Definition cancelAnimationFrame (r : nat) (v : t) : t :=
  {| animationRef := animationRef v;
     pending := if decide (pending v = Some r) then None else pending v;
     next_request := next_request v; canvas := canvas v; draws := draws v |}.

Definition paint (p : picture) (v : t) : t :=
  {| animationRef := animationRef v; pending := pending v;
     next_request := next_request v; canvas := p; draws := draws v |}.

(** Lines 22-71.  [data] is what [getByteFrequencyData] returns and [ctx]
    is [analyser.context.state] at the time of the call. *)
Definition draw (isPlaying : bool) (ctx : AudioContextState) (data : list Z) (v : t) : t :=
  let v1 := {| animationRef := animationRef v; pending := pending v;
               next_request := next_request v; canvas := Bars data;
               draws := S (draws v) |} in
  if isPlaying then requestAnimationFrame v1
  else
    match ctx with
    | closed | suspended => paint FlatLine v1
    | running => requestAnimationFrame v1
    end.

(** Lines 12-73: the effect body, run after a render whose [analyser] or
    [isPlaying] changed. *)
Definition effect (analyser : bool) (isPlaying : bool) (ctx : AudioContextState)
    (data : list Z) (v : t) : t :=
  if analyser then draw isPlaying ctx data v else v.

(** Lines 75-79: the cleanup of the effect. *)
Definition cleanup (v : t) : t :=
  match animationRef v with
  | Some r => if decide (r = 0%nat) then v else cancelAnimationFrame r v
  | None => v
  end.

(** One display refresh: the browser runs the requested callback, if it
    still holds one. *)
Definition frame (isPlaying : bool) (ctx : AudioContextState) (data : list Z) (v : t) : t :=
  match pending v with
  | Some _ =>
      draw isPlaying ctx data
           {| animationRef := animationRef v; pending := None;
              next_request := next_request v; canvas := canvas v; draws := draws v |}
  | None => v
  end.

(** A run of display refreshes, each with what the analyser shows then. *)
Fixpoint frames (isPlaying : bool) (obs : list (AudioContextState * list Z)) (v : t) : t :=
  match obs with
  | [] => v
  | (ctx, data) :: obs' => frames isPlaying obs' (frame isPlaying ctx data v)
  end.

End Visualizer.

(** ** The PCM decoder *)

Module PcmDecoder.

Inductive result : Type :=
| Decoded (b : AudioBuffer.t)
| MalformedAudioData.

(** The signed 16-bit little-endian samples of a byte sequence. *)
Fixpoint int16_samples (bytes : list Z) : list Z :=
  match bytes with
  | lo :: hi :: rest => le_int16 [lo; hi] :: int16_samples rest
  | _ => []
  end.

(** [sample / 32768.0]. *)
Definition to_float (x : Z) : JS.number := JS.Fin (x # 32768).

(** Channel [i] of the interleaved samples. *)
Definition channel (samples : list Z) (channelCount frames i : nat) : list JS.number :=
  map (fun k => to_float (nth (k * channelCount + i) samples 0)) (seq 0 frames).

(** Modelled from the spec: [decodeAudioData] of [utils/audioUtils.ts] is
    imported by [services/geminiService.ts] but its file is not among the
    sources.  Per section 4.1: the byte length must be divisible by
    [channelCount * 2], otherwise the result is [MalformedAudioData]; each
    sample is divided by 32768 and the samples are de-interleaved in
    channel order; the sample rate is taken as given. *)
Definition decode (bytes : list Z) (sampleRate : Z) (channelCount : nat) : result :=
  if decide (Nat.divide (channelCount * 2) (length bytes)) then
    let frames := (length bytes / (channelCount * 2))%nat in
    Decoded (AudioBuffer.mk sampleRate frames
               (map (channel (int16_samples bytes) channelCount frames)
                    (seq 0 channelCount)))
  else MalformedAudioData.

End PcmDecoder.

(** The little-endian bytes of a list of 16-bit samples. *)
Definition pcm_bytes (samples : list Z) : list Z :=
  flat_map (le_bytes 2) samples.

(** A generation record around a buffer, as [handleGenerate] builds it. *)
Definition record_of (name : string) (b : option AudioBuffer.t) : GeneratedAudio :=
  {| id := name; text := "hello"; voice := Kore; timestamp := 0;
     audioBuffer := b; duration := JS.of_Z 0 |}.

(** Every sample of the buffer is zero. *)
Definition all_zero (b : AudioBuffer.t) : Prop :=
  Forall (Forall (fun s => s = JS.of_Z 0)) (AudioBuffer.channelData b).

(** The state invariant of the player: a playing source is the one
    [sourceNodeRef] holds, [sourceNodeRef] holds a started source, and
    once the context exists so does the analyser. *)
Definition consistent (st : App) : Prop :=
  (forall n nd, nodes st !! n = Some nd -> playing nd = true ->
                sourceNodeRef st = Some n)
  /\ (forall n, sourceNodeRef st = Some n ->
                exists nd, nodes st !! n = Some nd /\ started nd = true)
  /\ (is_Some (audioContextRef st) -> analyserRef st = true).

(** No source is playing. *)
Definition quiet (st : App) : Prop :=
  forall n nd, nodes st !! n = Some nd -> playing nd = false.

(** The node [new_source] leaves behind when there is an analyser. *)
Definition started_source (buf : AudioBuffer.t) : SourceNode :=
  {| buffer := Some buf; connected := true; onended := true;
     started := true; stopped := false; ended := false |}.

(** ** Further definitions: the export *)

(** A byte. *)
Definition is_byte (x : Z) : Prop := 0 <= x < 256.


(** ** Further definitions: the player *)

(** What holds of the source of index [n] while [ref] is the content of
    [sourceNodeRef]: it has been started, has its handler and a buffer; if
    it is connected it is the one held; if it plays it is connected. *)
Definition node_ok (ref : option nat) (n : nat) (nd : SourceNode) : Prop :=
  started nd = true
  /\ onended nd = true
  /\ is_Some (buffer nd)
  /\ (connected nd = true -> ref = Some n)
  /\ (playing nd = true -> connected nd = true).

(** The sources named by the calls of each kind, in call order. *)
Definition created_sources (cs : list call) : list nat :=
  omap (fun c => match c with CreateBufferSource n => Some n | _ => None end) cs.

Definition connected_sources (cs : list call) : list nat :=
  omap (fun c => match c with SourceConnect n => Some n | _ => None end) cs.

Definition started_sources (cs : list call) : list nat :=
  omap (fun c => match c with SourceStart n => Some n | _ => None end) cs.

(** The number of [new AudioContext] calls. *)
Definition contexts_made (cs : list call) : nat :=
  length (omap (fun c => match c with NewAudioContext => Some tt | _ => None end) cs).

(** The invariant of the reachable states. *)
Definition sound (st : App) : Prop :=
  consistent st
  /\ (forall n nd, nodes st !! n = Some nd -> node_ok (sourceNodeRef st) n nd)
  /\ (isPlaying st = true ->
      exists n nd, sourceNodeRef st = Some n /\ nodes st !! n = Some nd
                   /\ playing nd = true)
  /\ (isPlaying st = true <-> is_Some (currentAudioId st))
  /\ contexts_made (calls st)
     = match audioContextRef st with Some _ => 1%nat | None => 0%nat end
  /\ created_sources (calls st) = seq 0 (length (nodes st))
  /\ connected_sources (calls st) = seq 0 (length (nodes st))
  /\ started_sources (calls st) = seq 0 (length (nodes st)).

(** No source is connected to the analyser. *)
Definition unrouted (st : App) : Prop :=
  forall n nd, nodes st !! n = Some nd -> connected nd = false.

(** ** Further definitions: the visualizer *)

Module VisualizerRun.

(** What can happen to the mounted component: the effect runs (after a
    render that changed [analyser] or [isPlaying]), the browser delivers a
    display refresh to the [draw] of an effect whose [isPlaying] was
    [playing], or the cleanup runs (before the next effect, or on
    unmount). *)
Inductive action : Type :=
| Effect (analyser playing : bool) (ctx : AudioContextState) (data : list Z)
| Frame (playing : bool) (ctx : AudioContextState) (data : list Z)
| Cleanup.

Definition step (a : action) (v : Visualizer.t) : Visualizer.t :=
  match a with
  | Effect analyser playing ctx data => Visualizer.effect analyser playing ctx data v
  | Frame playing ctx data => Visualizer.frame playing ctx data v
  | Cleanup => Visualizer.cleanup v
  end.

Definition run (acts : list action) (v : Visualizer.t) : Visualizer.t :=
  fold_left (fun s a => step a s) acts v.

(** The request the browser holds is the one [animationRef] names, and
    request ids are positive. *)
Definition tidy (v : Visualizer.t) : Prop :=
  (Visualizer.pending v = None \/ Visualizer.pending v = Visualizer.animationRef v)
  /\ (1 <= Visualizer.next_request v)%nat
  /\ (forall r, Visualizer.animationRef v = Some r -> (1 <= r)%nat).

End VisualizerRun.

(** The rectangle of one bar: the arguments of [roundRect]. *)
Record bar : Type := {
  bar_x : Q;
  bar_y : Q;
  bar_w : Q;
  bar_h : Q
}.

(** Lines 38-54: the [for] loop over the bins, with [x] the running left
    edge.  [barHeight] is [(dataArray[i] / 255) * height], here as an exact
    rational (the double is its rounding); [x] and [barWidth] are exact
    for the canvas and analyser the application uses. *)
Fixpoint bars (barWidth height x : Q) (dataArray : list Z) : list bar :=
  match dataArray with
  | [] => []
  | d :: rest =>
      let barHeight := ((inject_Z d / inject_Z 255) * height)%Q in
      {| bar_x := x; bar_y := (height - barHeight)%Q;
         bar_w := barWidth; bar_h := barHeight |}
      :: bars barWidth height (x + (barWidth + 1))%Q rest
  end.

(** Lines 34-54: [barWidth = (width / bufferLength) * 2.5] and the loop
    from [x = 0]. *)
Definition draw_bars (width height : Q) (dataArray : list Z) : list bar :=
  let bufferLength := inject_Z (Z.of_nat (length dataArray)) in
  let barWidth := ((width / bufferLength) * (5 # 2))%Q in
  bars barWidth height 0%Q dataArray.

(** The canvas of lines 83-88 and the analyser of line 57
    ([fftSize = 256], hence 128 bins). *)
Definition canvas_width : Q := inject_Z 600.
Definition canvas_height : Q := inject_Z 100.
Definition frequencyBinCount : nat := 128.

(** ** Further definitions: [VoiceSelector.tsx] *)

Inductive Gender : Type := Male | Female.

Record VoiceOption : Type := {
  vo_id : VoiceName;
  vo_name : string;
  vo_description : string;
  vo_gender : Gender
}.

Definition VOICES : list VoiceOption :=
  [ {| vo_id := Kore; vo_name := "Kore";
       vo_description := "Calm, soothing, nature-inspired"; vo_gender := Female |};
    {| vo_id := Fenrir; vo_name := "Fenrir";
       vo_description := "Deep, resonant, authoritative"; vo_gender := Male |};
    {| vo_id := Puck; vo_name := "Puck";
       vo_description := "Playful, energetic, mischievous"; vo_gender := Male |};
    {| vo_id := Charon; vo_name := "Charon";
       vo_description := "Steady, deep, composed"; vo_gender := Male |};
    {| vo_id := Zephyr; vo_name := "Zephyr";
       vo_description := "Light, airy, soft"; vo_gender := Female |} ].

Definition VoiceName_eqb (a b : VoiceName) : bool :=
  match a, b with
  | Puck, Puck | Charon, Charon | Kore, Kore | Fenrir, Fenrir | Zephyr, Zephyr => true
  | _, _ => false
  end.

(** The buttons drawn as selected: those with [selectedVoice === voice.id]. *)
Definition highlighted (selectedVoice : VoiceName) : list VoiceOption :=
  List.filter (fun o => VoiceName_eqb selectedVoice (vo_id o)) VOICES.

(** ** Further definitions: [handleGenerate] and [services/geminiService.ts] *)

(** The white space [String.prototype.trim] removes, among the code units
    below 256: tab, line feed, vertical tab, form feed, carriage return,
    space and no-break space. *)
Definition is_white (a : Ascii.ascii) : bool :=
  match Ascii.N_of_ascii a with
  | 9%N | 10%N | 11%N | 12%N | 13%N | 32%N | 160%N => true
  | _ => false
  end.

Fixpoint trim_start (s : string) : string :=
  match s with
  | String a s' => if is_white a then trim_start s' else s
  | EmptyString => EmptyString
  end.

(** [s.trim()]. *)
Definition trim (s : string) : string :=
  String.rev (trim_start (String.rev (trim_start s))).

(** [!s.trim()]. *)
Definition blank (s : string) : bool := bool_decide (trim s = "").

(** How a promise settles. *)
Inductive settled (A : Type) : Type :=
| Resolved (a : A)
| Rejected (message : string).
Arguments Resolved {A} a.
Arguments Rejected {A} message.

(** What [ai.models.generateContent] comes back with: a rejection, or a
    response whose
    [candidates?.[0]?.content?.parts?.[0]?.inlineData?.data] is [data]. *)
Inductive api_response : Type :=
| ApiFailure (message : string)
| ApiData (data : option string).

(** [generateSpeech] of [services/geminiService.ts].  [decodeAudio] stands
    for [decodeAudioData(decodeBase64(base64Audio), audioContext, 24000, 1)]:
    both functions are imported from [utils/audioUtils], which is not
    among the sources.  The [catch] logs and rethrows. *)
Definition generateSpeech (decodeAudio : string -> settled AudioBuffer.t)
    (text : string) (voiceName : VoiceName) (response : api_response)
  : settled AudioBuffer.t :=
  if blank text then Rejected "Text cannot be empty"
  else
    match response with
    | ApiFailure message => Rejected message
    | ApiData None => Rejected "No audio data received from Gemini API"
    | ApiData (Some base64Audio) =>
        if bool_decide (base64Audio = "")
        then Rejected "No audio data received from Gemini API"
        else decodeAudio base64Audio
    end.

(** [playAudio] as a closure of the render it was made in: the
    [currentAudioId] and [isPlaying] it tests are those of that render. *)
Definition playAudio_from (currentAudioId0 : option string) (isPlaying0 : bool)
    (item : GeneratedAudio) (st : App) : App :=
  if bool_decide (currentAudioId0 = Some (id item)) && isPlaying0
  then stopPlayback st
  else startPlayback item st.

(** [audioBuffer.duration]: the length over the sample rate (the double is
    the rounding of this rational). *)
Definition duration_of (b : AudioBuffer.t) : JS.number :=
  if decide (0 < AudioBuffer.sampleRate b)
  then JS.Fin (Z.of_nat (AudioBuffer.length b) # Z.to_pos (AudioBuffer.sampleRate b))
  else JS.NaN.

Module Studio.

(** What a [handleGenerate] call suspended at its [await] still holds: the
    text and voice of the render of the click, and that render's
    [playAudio]. *)
Record generation : Type := {
  g_text : string;
  g_voice : VoiceName;
  g_currentAudioId : option string;
  g_isPlaying : bool
}.

(** The state of [App]: the player, the remaining [useState] cells, and
    the generation in flight. *)
Record t : Type := {
  player : App;
  inputText : string;
  selectedVoice : VoiceName;
  isGenerating : bool;
  history : list GeneratedAudio;
  error : option string;
  awaiting : option generation
}.

Definition initial : t :=
  {| player := initial; inputText := ""; selectedVoice := Kore;
     isGenerating := false; history := []; error := None; awaiting := None |}.

Definition set_player (p : App) (s : t) : t :=
  {| player := p; inputText := inputText s; selectedVoice := selectedVoice s;
     isGenerating := isGenerating s; history := history s; error := error s;
     awaiting := awaiting s |}.

(** Lines 121-130: [handleGenerate] up to its [await]. *)
Definition handleGenerate (s : t) : t :=
  if blank (inputText s) then s
  else
    {| player := getAudioContext (stopPlayback (player s));
       inputText := inputText s; selectedVoice := selectedVoice s;
       isGenerating := true; history := history s; error := None;
       awaiting := Some {| g_text := inputText s; g_voice := selectedVoice s;
                           g_currentAudioId := currentAudioId (player s);
                           g_isPlaying := isPlaying (player s) |} |}.

(** Lines 132-150: [handleGenerate] from the point its [await] settles,
    with [newId] what [generateId()] returns and [now] what [Date.now()]
    returns. *)
Definition handleGenerate_settled (outcome : settled AudioBuffer.t)
    (newId : string) (now : Z) (s : t) : t :=
  match awaiting s with
  | None => s
  | Some g =>
      match outcome with
      | Resolved audioBuffer =>
          let newItem :=
            {| id := newId; text := g_text g; voice := g_voice g;
               timestamp := now; audioBuffer := Some audioBuffer;
               duration := duration_of audioBuffer |} in
          {| player := playAudio_from (g_currentAudioId g) (g_isPlaying g)
                         newItem (player s);
             inputText := inputText s; selectedVoice := selectedVoice s;
             isGenerating := false; history := newItem :: history s;
             error := error s; awaiting := None |}
      | Rejected message =>
          {| player := player s;
             inputText := inputText s; selectedVoice := selectedVoice s;
             isGenerating := false; history := history s;
             error := Some (if bool_decide (message = "")
                            then "Failed to generate speech. Please try again."
                            else message);
             awaiting := None |}
      end
  end.

(** What the user and the platform can do.  The text area and the voice
    buttons are disabled while [isGenerating]; the generate button is
    disabled while [isGenerating] or the text is blank. *)
Inductive action : Type :=
| TypeText (value : string)
| SelectVoice (v : VoiceName)
| ClickGenerate
| Settle (response : api_response) (newId : string) (now : Z)
| ClickPlay (i : nat)
| ClickDownload (i : nat)
| SourceEnded (n : nat)
| ContextChange (c : AudioContextState).

Definition step (decodeAudio : string -> settled AudioBuffer.t)
    (a : action) (s : t) : t :=
  match a with
  | TypeText value =>
      if isGenerating s then s
      else {| player := player s; inputText := value;
              selectedVoice := selectedVoice s; isGenerating := isGenerating s;
              history := history s; error := error s; awaiting := awaiting s |}
  | SelectVoice v =>
      if isGenerating s then s
      else {| player := player s; inputText := inputText s;
              selectedVoice := v; isGenerating := isGenerating s;
              history := history s; error := error s; awaiting := awaiting s |}
  | ClickGenerate =>
      if isGenerating s || blank (inputText s) then s else handleGenerate s
  | Settle response newId now =>
      match awaiting s with
      | Some g =>
          handleGenerate_settled
            (generateSpeech decodeAudio (g_text g) (g_voice g) response)
            newId now s
      | None => s
      end
  | ClickPlay i =>
      match history s !! i with
      | Some item => set_player (playAudio item (player s)) s
      | None => s
      end
  | ClickDownload i => s
  | SourceEnded n => set_player (source_ended n (player s)) s
  | ContextChange c => set_player (step (ContextState c) (player s)) s
  end.

Definition run (decodeAudio : string -> settled AudioBuffer.t)
    (acts : list action) (s : t) : t :=
  fold_left (fun s a => step decodeAudio a s) acts s.

(** The invariant of the reachable states. *)
Definition ok (s : t) : Prop :=
  sound (player s)
  /\ Forall (fun r => is_Some (audioBuffer r)) (history s)
  /\ (isGenerating s = true <-> is_Some (awaiting s))
  /\ (forall g, awaiting s = Some g ->
                blank (g_text g) = false
                /\ g_text g = inputText s /\ g_voice g = selectedVoice s)
  /\ (forall i, currentAudioId (player s) = Some i -> i ∈ map id (history s))
  /\ (forall g i, awaiting s = Some g -> g_currentAudioId g = Some i ->
                  i ∈ map id (history s)).

End Studio.

(** A decoder that resolves every payload to the buffer [b]. *)
Definition decode_to (b : AudioBuffer.t) : string -> settled AudioBuffer.t :=
  fun _ => Resolved b.

(** The generation a click holds when the text is [value], the voice is
    the default one and nothing has played yet. *)
Definition first_generation (value : string) : Studio.generation :=
  {| Studio.g_text := value; Studio.g_voice := Kore;
     Studio.g_currentAudioId := None; Studio.g_isPlaying := false |}.

(** ** Lemmas on little-endian fields *)

Lemma length_le_bytes n v : length (le_bytes n v) = n.
Proof. unfold le_bytes. by rewrite length_map, length_seq. Qed.

Lemma byte_of_mod v k : byte_of v k = (v / 2 ^ (8 * Z.of_nat k)) mod 256.
Proof.
  unfold byte_of. rewrite Z.shiftr_div_pow2 by lia.
  change 255 with (Z.ones 8). rewrite Z.land_ones by lia. reflexivity.
Qed.

Lemma byte_of_range v k : 0 <= byte_of v k < 256.
Proof. rewrite byte_of_mod. apply Z.mod_pos_bound. lia. Qed.

Lemma le_value_le_bytes_2 v : le_value (le_bytes 2 v) = v mod 2 ^ 16.
Proof.
  unfold le_bytes. cbn [seq map le_value]. rewrite !byte_of_mod.
  change (8 * Z.of_nat 0) with 0. change (8 * Z.of_nat 1) with 8.
  change (2 ^ 0) with 1. rewrite Z.div_1_r.
  change (2 ^ 16) with (256 * 256). rewrite Z.rem_mul_r by lia.
  change (2 ^ 8) with 256. lia.
Qed.

Lemma le_value_le_bytes_4 v : le_value (le_bytes 4 v) = v mod 2 ^ 32.
Proof.
  unfold le_bytes. cbn [seq map le_value]. rewrite !byte_of_mod.
  change (8 * Z.of_nat 0) with 0. change (8 * Z.of_nat 1) with 8.
  change (8 * Z.of_nat 2) with 16. change (8 * Z.of_nat 3) with 24.
  change (2 ^ 0) with 1. rewrite Z.div_1_r.
  change (2 ^ 32) with (256 * (256 * (256 * 256))).
  rewrite !Z.rem_mul_r by lia.
  change (2 ^ 8) with 256. change (2 ^ 16) with (256 * 256).
  change (2 ^ 24) with (256 * 256 * 256).
  rewrite <- !Z.div_div by lia. lia.
Qed.

Lemma le_int16_le_bytes v :
  -32768 <= v < 32768 -> le_int16 (le_bytes 2 v) = v.
Proof.
  intros Hv. unfold le_int16. rewrite le_value_le_bytes_2.
  change (2 ^ 16) with 65536.
  destruct (decide (0 <= v)) as [Hpos|Hneg].
  - rewrite Z.mod_small by lia. case_decide; lia.
  - replace (v mod 65536) with (v + 65536).
    + case_decide; lia.
    + apply (Z.mod_unique v 65536 (-1)); lia.
Qed.

Lemma le_bytes_0 n : le_bytes n 0 = replicate n 0.
Proof.
  unfold le_bytes. generalize 0%nat. induction n as [|n IH]; intros k; [done|].
  cbn [seq map replicate]. rewrite IH. f_equal.
  unfold byte_of. by rewrite Z.shiftr_0_l.
Qed.

(** ** [DataView] writes into a zero-filled buffer *)

Lemma DataView_set_app n v (pre old post : list Z) :
  length old = n ->
  DataView_set n (length pre) v (pre ++ old ++ post)
  = Return (pre ++ le_bytes n v ++ post).
Proof.
  intros Hn. unfold DataView_set.
  rewrite decide_True by (rewrite !length_app; lia).
  f_equal.
  replace (length pre) with (length pre + 0)%nat by lia.
  rewrite list_inserts_app_r.
  by rewrite list_inserts_0_r by (by rewrite length_le_bytes).
Qed.

Lemma replicate_split {A} (n m : nat) (x : A) :
  (n <= m)%nat -> replicate m x = replicate n x ++ replicate (m - n) x.
Proof.
  intros Hle. rewrite <- replicate_add. f_equal. lia.
Qed.

Lemma setUint32_zeros (pre : list Z) (m p o : nat) v :
  p = length pre -> (4 <= m)%nat ->
  Wav.setUint32 v {| Wav.view := pre ++ replicate m 0; Wav.pos := p; Wav.offset := o |}
  = Return (tt, {| Wav.view := (pre ++ le_bytes 4 v) ++ replicate (m - 4) 0;
                   Wav.pos := p + 4; Wav.offset := o |}).
Proof.
  intros -> Hm. unfold Wav.setUint32. cbn [Wav.view Wav.pos Wav.offset].
  rewrite (replicate_split 4 m) by lia.
  rewrite DataView_set_app by apply length_replicate.
  by rewrite <- app_assoc.
Qed.

Lemma setUint16_zeros (pre : list Z) (m p o : nat) v :
  p = length pre -> (2 <= m)%nat ->
  Wav.setUint16 v {| Wav.view := pre ++ replicate m 0; Wav.pos := p; Wav.offset := o |}
  = Return (tt, {| Wav.view := (pre ++ le_bytes 2 v) ++ replicate (m - 2) 0;
                   Wav.pos := p + 2; Wav.offset := o |}).
Proof.
  intros -> Hm. unfold Wav.setUint16. cbn [Wav.view Wav.pos Wav.offset].
  rewrite (replicate_split 2 m) by lia.
  rewrite DataView_set_app by apply length_replicate.
  by rewrite <- app_assoc.
Qed.

Lemma length_header rate c l : length (WavLayout.header rate c l) = 44%nat.
Proof. unfold WavLayout.header. rewrite !length_app, !length_le_bytes. lia. Qed.

Local Ltac header_step :=
  unfold Wav.bind at 1;
  first [ rewrite setUint32_zeros by (rewrite ?length_app, ?length_le_bytes; simpl; lia)
        | rewrite setUint16_zeros by (rewrite ?length_app, ?length_le_bytes; simpl; lia) ].

(** The header writes never leave the buffer; they fill its first 44 bytes
    and leave [pos] at 44. *)
Lemma write_header_spec (b : AudioBuffer.t) (c l : Z) (n : nat) :
  Wav.write_header b c l
    {| Wav.view := replicate (n + 44) 0; Wav.pos := 0; Wav.offset := 0 |}
  = Return (tt, {| Wav.view := WavLayout.header (AudioBuffer.sampleRate b) c l
                               ++ replicate n 0;
                   Wav.pos := 44; Wav.offset := 0 |}).
Proof.
  unfold Wav.write_header.
  change (replicate (n + 44) 0) with ([] ++ replicate (n + 44) 0).
  do 12 header_step.
  unfold Wav.bind at 1. unfold Wav.get_pos at 1. cbn [Wav.pos].
  rewrite setUint32_zeros by (rewrite ?length_app, ?length_le_bytes; simpl; lia).
  cbn [Nat.add]. do 2 f_equal. f_equal.
  unfold WavLayout.header. rewrite <- !app_assoc. cbn [app].
  change (Z.of_nat 40) with 40.
  replace (n + 44 - 4 - 4 - 4 - 4 - 4 - 2 - 2 - 4 - 4 - 2 - 2 - 4 - 4)%nat
    with n by lia.
  reflexivity.
Qed.

(** ** The sample loop *)

Lemma omap_lookup_seq {A} (pre l : list A) :
  omap (fun i => (pre ++ l) !! i) (seq (length pre) (length l)) = l.
Proof.
  revert pre. induction l as [|x l IH]; intros pre; [done|].
  cbn [length seq]. cbn [omap list_omap].
  rewrite list_lookup_middle by done.
  f_equal.
  specialize (IH (pre ++ [x])).
  rewrite <- app_assoc, length_app in IH. cbn [length app] in IH.
  by replace (length pre + 1)%nat with (S (length pre)) in IH by lia.
Qed.

Lemma collect_channels_eq b : Wav.collect_channels b = AudioBuffer.channelData b.
Proof.
  unfold Wav.collect_channels, AudioBuffer.getChannelData,
    AudioBuffer.numberOfChannels.
  exact (omap_lookup_seq [] (AudioBuffer.channelData b)).
Qed.

Lemma length_frame channels p :
  length (WavLayout.frame channels p) = (2 * length channels)%nat.
Proof.
  unfold WavLayout.frame. induction channels as [|ch chs IH]; [done|].
  cbn [flat_map length]. rewrite length_app, length_le_bytes, IH. lia.
Qed.

Lemma interleave_spec channels count :
  forall i hdr done m p o,
    length hdr = 44%nat -> o = length done ->
    (i + count <= length channels)%nat -> (2 * count <= m)%nat ->
    Wav.interleave channels count i
      {| Wav.view := hdr ++ done ++ replicate m 0; Wav.pos := p; Wav.offset := o |}
    = Return (tt, {| Wav.view := hdr ++ (done ++ WavLayout.frame (take count (drop i channels)) p)
                                 ++ replicate (m - 2 * count) 0;
                     Wav.pos := p; Wav.offset := o + 2 * count |}).
Proof.
  induction count as [|count IH]; intros i hdr done m p o Hh Ho Hi Hm.
  - cbn [Wav.interleave Wav.ret take WavLayout.frame flat_map].
    rewrite app_nil_r.
    replace (m - 2 * 0)%nat with m by lia.
    by replace (o + 2 * 0)%nat with o by lia.
  - cbn [Wav.interleave]. unfold Wav.bind at 1.
    destruct (lookup_lt_is_Some_2 channels i ltac:(lia)) as [ch Hch].
    unfold Wav.write_sample, Wav.read_sample. cbn [Wav.view Wav.pos Wav.offset].
    rewrite Hch.
    rewrite (replicate_split 2 m) by lia.
    replace (44 + o)%nat with (length (hdr ++ done)) by (rewrite length_app; lia).
    rewrite (app_assoc hdr done).
    rewrite DataView_set_app by apply length_replicate.
    rewrite <- (app_assoc hdr done), (app_assoc done).
    rewrite IH; [ | done | rewrite length_app, length_le_bytes; lia | lia | lia ].
    rewrite (drop_S channels ch i Hch). cbn [take WavLayout.frame flat_map].
    rewrite <- !app_assoc.
    replace (m - 2 - 2 * count)%nat with (m - 2 * S count)%nat by lia.
    by replace (o + 2 + 2 * count)%nat with (o + 2 * S count)%nat by lia.
Qed.

Lemma write_frames_spec b channels fuel :
  forall p hdr done rest o,
    length hdr = 44%nat -> o = length done ->
    (AudioBuffer.length b - p <= fuel)%nat ->
    exists s',
      Wav.write_frames fuel b channels (length channels)
        {| Wav.view := hdr ++ done
                       ++ replicate (2 * length channels * (AudioBuffer.length b - p) + rest) 0;
           Wav.pos := p; Wav.offset := o |}
      = Return (tt, s')
      /\ Wav.view s' = hdr ++ done
                       ++ flat_map (WavLayout.frame channels)
                                   (seq p (AudioBuffer.length b - p))
                       ++ replicate rest 0.
Proof.
  induction fuel as [|fuel IH]; intros p hdr done rest o Hh Ho Hfuel.
  - cbn [Wav.write_frames Wav.pos]. rewrite decide_False by lia.
    eexists; split; [reflexivity|]. cbn [Wav.view].
    replace (AudioBuffer.length b - p)%nat with 0%nat by lia.
    by rewrite Nat.mul_0_r.
  - cbn [Wav.write_frames Wav.pos]. case_decide as Hlt.
    + unfold Wav.bind at 1.
      replace (2 * length channels * (AudioBuffer.length b - p) + rest)%nat
        with (2 * length channels
              + (2 * length channels * (AudioBuffer.length b - (p + 1)) + rest))%nat
        by nia.
      rewrite interleave_spec by (try done; nia).
      unfold Wav.bind at 1. unfold Wav.incr_pos at 1.
      cbn [Wav.view Wav.pos Wav.offset].
      rewrite drop_0, firstn_all.
      replace (2 * length channels
               + (2 * length channels * (AudioBuffer.length b - (p + 1)) + rest)
               - 2 * length channels)%nat
        with (2 * length channels * (AudioBuffer.length b - (p + 1)) + rest)%nat
        by nia.
      destruct (IH (p + 1)%nat hdr (done ++ WavLayout.frame channels p) rest
                   (o + 2 * length channels)%nat) as (s' & Hrun & Hview).
      { done. }
      { rewrite length_app, length_frame. lia. }
      { lia. }
      exists s'. split; [exact Hrun|].
      rewrite Hview.
      replace (AudioBuffer.length b - p)%nat
        with (S (AudioBuffer.length b - (p + 1))) by lia.
      cbn [seq flat_map]. rewrite <- !app_assoc.
      by replace (S p) with (p + 1)%nat by lia.
    + eexists; split; [reflexivity|]. cbn [Wav.view].
      replace (AudioBuffer.length b - p)%nat with 0%nat by lia.
      by rewrite Nat.mul_0_r.
Qed.

(** The export as a function on lists: the loops terminate, no write
    leaves the buffer, and the bytes are the header followed by the data
    chunk of [WavLayout.data]. *)
Lemma encode_spec (b : AudioBuffer.t) : Wav.encode b = Return (WavLayout.file b).
Proof.
  unfold Wav.encode. unfold Wav.bind at 1.
  rewrite write_header_spec, collect_channels_eq.
  unfold AudioBuffer.numberOfChannels.
  set (L := AudioBuffer.length b). set (chs := AudioBuffer.channelData b).
  destruct (write_frames_spec b chs L 44%nat
              (WavLayout.header (AudioBuffer.sampleRate b)
                 (Z.of_nat (length chs)) (Z.of_nat (L * length chs * 2 + 44)))
              [] (2 * length chs * Nat.min 44 L)%nat 0%nat)
    as (s' & Hrun & Hview).
  { apply length_header. }
  { done. }
  { lia. }
  cbn [app] in Hrun, Hview. fold L in Hrun, Hview.
  replace (2 * length chs * (L - 44) + 2 * length chs * Nat.min 44 L)%nat
    with (L * length chs * 2)%nat in Hrun by nia.
  rewrite Hrun, Hview. reflexivity.
Qed.

(** ** The sample conversion *)

Lemma wrap32_small z : - 2 ^ 31 <= z < 2 ^ 31 -> JS.wrap32 z = z.
Proof. intros Hz. unfold JS.wrap32. rewrite Z.mod_small; lia. Qed.

Lemma clamp_Fin q :
  Wav.clamp (JS.Fin q)
  = if Qle_bool 1 q then JS.of_Z 1
    else if Qle_bool q (-1) then JS.of_Z (-1) else JS.Fin q.
Proof.
  unfold Wav.clamp, JS.Math_min, JS.Math_max, JS.of_Z, JS.lt.
  change (inject_Z 1) with 1%Q. change (inject_Z (-1)) with (-1)%Q.
  destruct (Qle_bool 1 q) eqn:H1; cbn [negb].
  - reflexivity.
  - destruct (Qle_bool q (-1)); reflexivity.
Qed.

(** The clamped sample is NaN or a rational of [[-1, 1]]. *)
Lemma clamp_cases x :
  Wav.clamp x = JS.NaN
  \/ exists n d, Wav.clamp x = JS.Fin (n # d) /\ - Zpos d <= n <= Zpos d.
Proof.
  destruct x as [[n d]| | |].
  - right. rewrite clamp_Fin.
    destruct (Qle_bool 1 (n # d)) eqn:H1.
    { exists 1, 1%positive. split; [reflexivity|lia]. }
    destruct (Qle_bool (n # d) (-1)) eqn:H2.
    { exists (-1), 1%positive. split; [reflexivity|lia]. }
    exists n, d. split; [reflexivity|].
    unfold Qle_bool in H1, H2. cbn in H1, H2.
    apply Z.leb_gt in H1, H2. lia.
  - by left.
  - right. exists 1, 1%positive. split; [reflexivity|lia].
  - right. exists (-1), 1%positive. split; [reflexivity|lia].
Qed.

Lemma quot_scale_bounds n d k :
  0 < k -> - Zpos d <= n <= Zpos d ->
  - k <= Z.quot (n * k) (Zpos d) <= k.
Proof.
  intros Hk Hn. split.
  - replace (- k) with (Z.quot (- k * Zpos d) (Zpos d)) by (apply Z.quot_mul; lia).
    apply Z.quot_le_mono; nia.
  - replace k with (Z.quot (k * Zpos d) (Zpos d)) at 2 by (apply Z.quot_mul; lia).
    apply Z.quot_le_mono; nia.
Qed.

(** What line 192 computes on a clamped rational: the scale is 32768 below
    [-1/2] and 32767 from [-1/2] on. *)
Lemma scale_Fin n d :
  - Zpos d <= n <= Zpos d ->
  Wav.scale (JS.Fin (n # d))
  = if decide (2 * n < - Zpos d)
    then Z.quot (n * 32768) (Zpos d)
    else Z.quot (n * 32767) (Zpos d).
Proof.
  intros Hn. unfold Wav.scale, JS.lt, JS.add, JS.mul, JS.of_Z, JS.ToInt32.
  assert (Hlt : Qle_bool (inject_Z 0) ((1 # 2) + (n # d))
                = negb (bool_decide (2 * n < - Zpos d))).
  { unfold Qle_bool. cbn. case_bool_decide; cbn.
    - apply Z.leb_gt. lia.
    - apply Z.leb_le. lia. }
  rewrite Hlt, negb_involutive.
  pose proof (quot_scale_bounds n d 32768 ltac:(lia) Hn) as B1.
  pose proof (quot_scale_bounds n d 32767 ltac:(lia) Hn) as B2.
  case_bool_decide; case_decide; try lia.
  - unfold JS.Qtrunc. cbn. rewrite Pos.mul_1_r. apply wrap32_small. lia.
  - unfold JS.Qtrunc. cbn. rewrite Pos.mul_1_r. apply wrap32_small. lia.
Qed.

(** The stored value always fits 16 signed bits: [setInt16] never wraps. *)
Lemma sample_int16_range x : -32768 <= Wav.sample_int16 x <= 32767.
Proof.
  unfold Wav.sample_int16.
  destruct (clamp_cases x) as [->|(n & d & -> & Hn)]; [cbn; lia|].
  rewrite scale_Fin by done.
  case_decide as Hlow.
  - pose proof (quot_scale_bounds n d 32768 ltac:(lia) Hn).
    assert (Z.quot (n * 32768) (Zpos d) <= Z.quot 0 (Zpos d))
      by (apply Z.quot_le_mono; lia).
    rewrite Z.quot_0_l in * by lia. lia.
  - pose proof (quot_scale_bounds n d 32767 ltac:(lia) Hn). lia.
Qed.

Lemma claimed_Fin x n d :
  Wav.clamp x = JS.Fin (n # d) -> - Zpos d <= n <= Zpos d ->
  claimed_sample_int16 x
  = if decide (n < 0)
    then Z.quot (n * 32768) (Zpos d)
    else Z.quot (n * 32767) (Zpos d).
Proof.
  intros Hc Hn. unfold claimed_sample_int16. rewrite Hc.
  unfold JS.lt, JS.mul, JS.of_Z, JS.ToInt32.
  assert (Hlt : Qle_bool (inject_Z 0) (n # d) = negb (bool_decide (n < 0))).
  { unfold Qle_bool. cbn. case_bool_decide; cbn.
    - apply Z.leb_gt. lia.
    - apply Z.leb_le. lia. }
  rewrite Hlt, negb_involutive.
  pose proof (quot_scale_bounds n d 32768 ltac:(lia) Hn) as B1.
  pose proof (quot_scale_bounds n d 32767 ltac:(lia) Hn) as B2.
  case_bool_decide; case_decide; try lia.
  - unfold JS.Qtrunc. cbn. rewrite Pos.mul_1_r. apply wrap32_small. lia.
  - unfold JS.Qtrunc. cbn. rewrite Pos.mul_1_r. apply wrap32_small. lia.
Qed.

(** Outside the interval [[-1/2, 0)] the export stores what the
    sign-selected scaling gives. *)
Lemma sample_int16_agrees x n d :
  Wav.clamp x = JS.Fin (n # d) -> - Zpos d <= n <= Zpos d ->
  2 * n < - Zpos d \/ 0 <= n ->
  Wav.sample_int16 x = claimed_sample_int16 x.
Proof.
  intros Hc Hn Hout. rewrite (claimed_Fin x n d Hc Hn).
  unfold Wav.sample_int16. rewrite Hc, scale_Fin by done.
  repeat case_decide; try lia; reflexivity.
Qed.

(** Inside [[-1/2, 0)] the export scales by 32767. *)
Lemma sample_int16_gap x n d :
  Wav.clamp x = JS.Fin (n # d) -> - Zpos d <= 2 * n -> n < 0 ->
  Wav.sample_int16 x = Z.quot (n * 32767) (Zpos d).
Proof.
  intros Hc Hlo Hneg. unfold Wav.sample_int16.
  rewrite Hc, scale_Fin by lia. case_decide; [lia|reflexivity].
Qed.

(** C1 (defect of the code).  The claim scales every negative sample by
    32768.  Line 192 tests [0.5 + sample < 0], so the samples of
    [[-0.5, 0)] are scaled by 32767: at [-0.25] the export stores [-8191]
    where the sign-selected scaling gives [-8192], also in the file
    itself (sample 44 of a mono buffer, the first one written). *)
Theorem sample_int16_quarter :
  Wav.sample_int16 (JS.Fin (-1 # 4)) = -8191
  /\ claimed_sample_int16 (JS.Fin (-1 # 4)) = -8192
  /\ exists bytes,
       Wav.encode (mono 24000 (replicate 44 (JS.of_Z 0) ++ [JS.Fin (-1 # 4)]))
       = Return bytes
       /\ stored_sample bytes 0 = -8191.
Proof.
  split; [vm_compute; reflexivity|].
  split; [vm_compute; reflexivity|].
  eexists. split; [vm_compute; reflexivity|].
  vm_compute. reflexivity.
Qed.

(** ** The container *)

Lemma length_frames channels ps :
  length (flat_map (WavLayout.frame channels) ps)
  = (2 * length channels * length ps)%nat.
Proof.
  induction ps as [|p ps IH]; cbn [flat_map length]; [lia|].
  rewrite length_app, length_frame, IH. lia.
Qed.

Lemma length_data b :
  length (WavLayout.data b)
  = (AudioBuffer.length b * AudioBuffer.numberOfChannels b * 2)%nat.
Proof.
  unfold WavLayout.data, AudioBuffer.numberOfChannels.
  rewrite length_app, length_frames, length_seq, length_replicate. nia.
Qed.

Lemma length_file b :
  length (WavLayout.file b)
  = (44 + AudioBuffer.length b * AudioBuffer.numberOfChannels b * 2)%nat.
Proof.
  unfold WavLayout.file. by rewrite length_app, length_header, length_data.
Qed.

(** A buffer of at most 44 frames leaves a data chunk of zeros. *)
Lemma data_short b :
  (AudioBuffer.length b <= 44)%nat ->
  WavLayout.data b
  = replicate (AudioBuffer.length b * AudioBuffer.numberOfChannels b * 2) 0.
Proof.
  intros Hle. unfold WavLayout.data.
  replace (AudioBuffer.length b - 44)%nat with 0%nat by lia.
  cbn [seq flat_map app]. f_equal. lia.
Qed.

Local Ltac fold_fields :=
  repeat match goal with
    | |- context [le_value [byte_of ?v 0%nat; byte_of ?v 1%nat;
                            byte_of ?v 2%nat; byte_of ?v 3%nat]] =>
        change (le_value [byte_of v 0%nat; byte_of v 1%nat;
                          byte_of v 2%nat; byte_of v 3%nat])
          with (le_value (le_bytes 4 v));
        rewrite le_value_le_bytes_4
    | |- context [le_value [byte_of ?v 0%nat; byte_of ?v 1%nat]] =>
        change (le_value [byte_of v 0%nat; byte_of v 1%nat])
          with (le_value (le_bytes 2 v));
        rewrite le_value_le_bytes_2
    end.

(** The header fields of the file, read back modulo their width. *)
Lemma file_fields b :
  let C := Z.of_nat (AudioBuffer.numberOfChannels b) in
  let total := Z.of_nat (AudioBuffer.length b * AudioBuffer.numberOfChannels b * 2 + 44) in
  field (WavLayout.file b) 4 4 = (total - 8) mod 2 ^ 32
  /\ field (WavLayout.file b) 22 2 = C mod 2 ^ 16
  /\ field (WavLayout.file b) 24 4 = AudioBuffer.sampleRate b mod 2 ^ 32
  /\ field (WavLayout.file b) 28 4 = (AudioBuffer.sampleRate b * 2 * C) mod 2 ^ 32
  /\ field (WavLayout.file b) 32 2 = (C * 2) mod 2 ^ 16
  /\ field (WavLayout.file b) 34 2 = 16
  /\ field (WavLayout.file b) 40 4 = (total - 40 - 4) mod 2 ^ 32.
Proof.
  intros C total. unfold WavLayout.file, WavLayout.header, field.
  fold C. fold total.
  generalize (WavLayout.data b) as d. intros d.
  cbv [le_bytes seq map]. cbn [app drop take firstn skipn]. rewrite ?take_0.
  repeat split; fold_fields; reflexivity.
Qed.

(** C2.  For a buffer of [L] frames and [C] channels whose sizes fit the
    header's 32-bit and 16-bit fields, the export returns exactly
    [44 + L * C * 2] bytes; read back little-endian, the RIFF length is
    the total minus 8, the data chunk length is [L * C * 2], the byte rate
    is [sampleRate * C * 2], the block align is [C * 2] and the bits per
    sample are 16.  An all-zero buffer of 2 channels and 4 frames gives 60
    bytes, 16 zero bytes of data and the byte rate [sampleRate * 4]. *)
Theorem wav_container_layout (b : AudioBuffer.t) :
  Z.of_nat (44 + AudioBuffer.length b * AudioBuffer.numberOfChannels b * 2) < 2 ^ 32 ->
  0 <= AudioBuffer.sampleRate b * Z.of_nat (AudioBuffer.numberOfChannels b) * 2 < 2 ^ 32 ->
  Z.of_nat (AudioBuffer.numberOfChannels b) * 2 < 2 ^ 16 ->
  exists bytes,
    Wav.encode b = Return bytes
    /\ length bytes
       = (44 + AudioBuffer.length b * AudioBuffer.numberOfChannels b * 2)%nat
    /\ field bytes 4 4 = Z.of_nat (length bytes) - 8
    /\ field bytes 40 4
       = Z.of_nat (AudioBuffer.length b * AudioBuffer.numberOfChannels b * 2)
    /\ field bytes 28 4
       = AudioBuffer.sampleRate b * Z.of_nat (AudioBuffer.numberOfChannels b) * 2
    /\ field bytes 32 2 = Z.of_nat (AudioBuffer.numberOfChannels b) * 2
    /\ field bytes 34 2 = 16
    /\ (AudioBuffer.numberOfChannels b = 2%nat -> AudioBuffer.length b = 4%nat ->
        all_zero b ->
        length bytes = 60%nat
        /\ drop 44 bytes = replicate 16 0
        /\ field bytes 28 4 = AudioBuffer.sampleRate b * 4).
Proof.
  intros Htotal Hrate Hchan.
  exists (WavLayout.file b). split; [apply encode_spec|].
  destruct (file_fields b) as (F4 & _ & _ & F28 & F32 & F34 & F40).
  rewrite length_file.
  split; [reflexivity|].
  split; [rewrite F4, Z.mod_small; lia|].
  split; [rewrite F40, Z.mod_small; lia|].
  assert (H28 : field (WavLayout.file b) 28 4
                = AudioBuffer.sampleRate b * Z.of_nat (AudioBuffer.numberOfChannels b) * 2).
  { rewrite F28, Z.mod_small; lia. }
  split; [exact H28|].
  split; [rewrite F32, Z.mod_small; lia|].
  split; [exact F34|].
  intros HC HL _. split; [lia|]. split.
  - unfold WavLayout.file.
    rewrite <- (length_header (AudioBuffer.sampleRate b)
                  (Z.of_nat (AudioBuffer.numberOfChannels b))
                  (Z.of_nat (AudioBuffer.length b * AudioBuffer.numberOfChannels b * 2 + 44)))
      at 1.
    rewrite drop_app_length, data_short by lia.
    by rewrite HC, HL.
  - rewrite H28, HC. lia.
Qed.

Lemma wav_container_layout_witness :
  exists bytes,
    Wav.encode (silence 24000 2 4) = Return bytes
    /\ length bytes = 60%nat
    /\ field bytes 4 4 = 52
    /\ field bytes 40 4 = 16
    /\ field bytes 28 4 = 96000
    /\ field bytes 32 2 = 4
    /\ field bytes 34 2 = 16
    /\ drop 44 bytes = replicate 16 0.
Proof.
  destruct (wav_container_layout (silence 24000 2 4))
    as (bytes & Henc & Hlen & F4 & F40 & F28 & F32 & F34 & Hzero).
  - vm_compute. reflexivity.
  - vm_compute. split; discriminate || reflexivity.
  - vm_compute. reflexivity.
  - exists bytes.
    destruct Hzero as (_ & Hdata & _).
    + reflexivity.
    + reflexivity.
    + repeat constructor.
    + rewrite Hlen in F4. repeat split; assumption.
Defined.

(** C3, the claim as stated fails: a buffer without samples is exported,
    nothing is thrown, and the result is a header-only file of 44 bytes. *)
Lemma empty_buffer_is_exported :
  (forall e, handleDownload (record_of "a" (Some (mono 24000 []))) <> Throw e)
  /\ exists d,
       handleDownload (record_of "a" (Some (mono 24000 []))) = Return (Some d)
       /\ length (blob d) = 44%nat.
Proof.
  split.
  - intros e. vm_compute. discriminate.
  - eexists. split; [vm_compute; reflexivity|]. reflexivity.
Qed.

(** C3 (amended).  The export has no empty-buffer error: for a record
    whose buffer has no sample frames it throws nothing and hands out a
    header-only file of exactly 44 bytes, with RIFF length 36 and data
    chunk length 0. *)
Theorem empty_buffer_header_only (item : GeneratedAudio) (b : AudioBuffer.t) :
  audioBuffer item = Some b ->
  AudioBuffer.length b = 0%nat ->
  exists d,
    handleDownload item = Return (Some d)
    /\ length (blob d) = 44%nat
    /\ field (blob d) 4 4 = 36
    /\ field (blob d) 40 4 = 0
    /\ drop 44 (blob d) = [].
Proof.
  intros Hbuf Hlen. unfold handleDownload. rewrite Hbuf, encode_spec.
  eexists. split; [reflexivity|]. cbn [blob].
  destruct (file_fields b) as (F4 & _ & _ & _ & _ & _ & F40).
  rewrite Hlen in F4, F40. cbn in F4, F40.
  split; [rewrite length_file, Hlen; reflexivity|].
  split; [exact F4|]. split; [exact F40|].
  apply nil_length_inv. rewrite length_drop, length_file, Hlen. reflexivity.
Qed.

Lemma empty_buffer_header_only_witness :
  exists d,
    handleDownload (record_of "a" (Some (silence 24000 1 0))) = Return (Some d)
    /\ length (blob d) = 44%nat
    /\ field (blob d) 4 4 = 36
    /\ field (blob d) 40 4 = 0
    /\ drop 44 (blob d) = [].
Proof.
  apply (empty_buffer_header_only _ (silence 24000 1 0)); reflexivity.
Defined.

(** ** Decoding and the round trip *)

(** One sample through [sample / 32768] and lines 191-192 comes back
    within one step. *)
Lemma sample_roundtrip (x : Z) :
  -32768 <= x <= 32767 ->
  -1 <= Wav.sample_int16 (PcmDecoder.to_float x) - x <= 1.
Proof.
  intros Hx. unfold Wav.sample_int16, PcmDecoder.to_float.
  rewrite clamp_Fin.
  assert (H1 : Qle_bool 1 (x # 32768) = false).
  { unfold Qle_bool. cbn. apply Z.leb_gt. lia. }
  rewrite H1.
  destruct (Qle_bool (x # 32768) (-1)) eqn:H2.
  - unfold Qle_bool in H2. cbn in H2. apply Z.leb_le in H2.
    assert (x = -32768) as -> by lia. vm_compute. split; discriminate.
  - unfold Qle_bool in H2. cbn in H2. apply Z.leb_gt in H2.
    rewrite scale_Fin by lia. case_decide.
    + rewrite Z.quot_mul by lia. lia.
    + Z.quot_rem_to_equations. nia.
Qed.

Lemma pcm_decode_length bytes rate c b :
  PcmDecoder.decode bytes rate c = PcmDecoder.Decoded b ->
  AudioBuffer.sampleRate b = rate
  /\ AudioBuffer.numberOfChannels b = c
  /\ AudioBuffer.well_formed b
  /\ (AudioBuffer.length b * c * 2)%nat = length bytes.
Proof.
  unfold PcmDecoder.decode. case_decide as Hdiv; [|discriminate].
  intros [= <-]. unfold AudioBuffer.numberOfChannels, AudioBuffer.well_formed.
  cbn [AudioBuffer.sampleRate AudioBuffer.length AudioBuffer.channelData].
  split; [reflexivity|]. split; [by rewrite length_map, length_seq|]. split.
  - apply Forall_forall. intros ch Hin. apply list_elem_of_fmap in Hin.
    destruct Hin as (i & -> & _). unfold PcmDecoder.channel.
    by rewrite length_map, length_seq.
  - destruct Hdiv as [k Hk]. rewrite Hk.
    destruct (decide (c = 0%nat)) as [->|Hc]; [lia|].
    rewrite Nat.div_mul by lia. lia.
Qed.

(** C5.  Against the decoder of section 4.1: a byte sequence whose length
    is not a multiple of [channelCount * 2] is refused with
    [MalformedAudioData] and no buffer comes out; one whose length is a
    multiple is decoded whole, into [channelCount] channels of
    [length / (channelCount * 2)] samples each. *)
Theorem pcm_decode_divisibility (bytes : list Z) (rate : Z) (c : nat) :
  (~ Nat.divide (c * 2) (length bytes) ->
   PcmDecoder.decode bytes rate c = PcmDecoder.MalformedAudioData
   /\ forall b, PcmDecoder.decode bytes rate c <> PcmDecoder.Decoded b)
  /\ (Nat.divide (c * 2) (length bytes) ->
      exists b,
        PcmDecoder.decode bytes rate c = PcmDecoder.Decoded b
        /\ AudioBuffer.numberOfChannels b = c
        /\ AudioBuffer.well_formed b
        /\ (AudioBuffer.length b * c * 2)%nat = length bytes).
Proof.
  split.
  - intros Hnd. unfold PcmDecoder.decode. rewrite decide_False by done.
    split; [reflexivity|]. intros b. discriminate.
  - intros Hd.
    assert (exists b, PcmDecoder.decode bytes rate c = PcmDecoder.Decoded b)
      as [b Hb].
    { unfold PcmDecoder.decode. rewrite decide_True by done. eauto. }
    exists b. split; [exact Hb|].
    destruct (pcm_decode_length _ _ _ _ Hb) as (_ & ? & ? & ?). done.
Qed.

Lemma pcm_decode_divisibility_witness :
  PcmDecoder.decode [1; 2; 3] 24000 1 = PcmDecoder.MalformedAudioData
  /\ exists b, PcmDecoder.decode [1; 2; 3; 4] 24000 2 = PcmDecoder.Decoded b
               /\ AudioBuffer.length b = 1%nat.
Proof.
  split.
  - apply (proj1 (pcm_decode_divisibility [1; 2; 3] 24000 1)).
    intros [k Hk]. cbn in Hk. lia.
  - destruct (proj2 (pcm_decode_divisibility [1; 2; 3; 4] 24000 2))
      as (b & Hb & _ & _ & Hlen).
    + exists 1%nat. reflexivity.
    + exists b. split; [exact Hb|]. cbn in Hlen. lia.
Defined.

(** ** Which frames reach the data chunk *)

Lemma drop_flat_map_blocks {A B} (f : A -> list B) (w : nat) (l : list A) :
  (forall x, length (f x) = w) ->
  forall j, drop (w * j) (flat_map f l) = flat_map f (drop j l).
Proof.
  intros Hw. induction l as [|x l IH]; intros j.
  - cbn [flat_map]. by rewrite !drop_nil.
  - destruct j as [|j].
    + by rewrite Nat.mul_0_r.
    + cbn [flat_map drop skipn].
      replace (w * S j)%nat with (length (f x) + w * j)%nat by (rewrite Hw; lia).
      rewrite drop_app_add. apply IH.
Qed.

(** Frame [j] of the data chunk holds the samples of frame [44 + j] of the
    buffer. *)
Lemma exported_frame b j :
  (44 + j < AudioBuffer.length b)%nat ->
  take (2 * AudioBuffer.numberOfChannels b)
       (drop (44 + 2 * AudioBuffer.numberOfChannels b * j) (WavLayout.file b))
  = WavLayout.frame (AudioBuffer.channelData b) (44 + j).
Proof.
  intros Hj. unfold WavLayout.file.
  rewrite drop_app_add' by (by rewrite length_header).
  unfold WavLayout.data, AudioBuffer.numberOfChannels.
  set (chs := AudioBuffer.channelData b). set (L := AudioBuffer.length b) in *.
  rewrite drop_app_le by (rewrite length_frames, length_seq; nia).
  rewrite (drop_flat_map_blocks _ (2 * length chs)) by apply length_frame.
  change (@drop nat) with (@skipn nat). rewrite List.skipn_seq.
  replace (L - 44 - j)%nat with (S (L - 44 - j - 1)) by lia.
  cbn [seq flat_map]. rewrite <- app_assoc.
  by rewrite take_app_length' by (by rewrite length_frame).
Qed.

(** The rest of the data chunk, as many frames as the loop skipped, is
    zeros. *)
Lemma exported_tail b :
  drop (44 + 2 * AudioBuffer.numberOfChannels b * (AudioBuffer.length b - 44))
       (WavLayout.file b)
  = replicate (2 * AudioBuffer.numberOfChannels b
               * Nat.min 44 (AudioBuffer.length b)) 0.
Proof.
  unfold WavLayout.file.
  rewrite drop_app_add' by (by rewrite length_header).
  unfold WavLayout.data, AudioBuffer.numberOfChannels.
  by rewrite drop_app_length' by (by rewrite length_frames, length_seq).
Qed.

(** What [getInt16] reads back is the integer the loop computed. *)
Lemma le_int16_sample x :
  le_int16 (le_bytes 2 (Wav.sample_int16 x)) = Wav.sample_int16 x.
Proof. apply le_int16_le_bytes. pose proof (sample_int16_range x). lia. Qed.

(** In a mono buffer, stored sample [k] is the conversion of sample
    [44 + k]. *)
Lemma exported_sample_mono rate xs k :
  (44 + k < length xs)%nat ->
  stored_sample (WavLayout.file (mono rate xs)) k
  = Wav.sample_int16 (default JS.NaN (xs !! (44 + k)%nat)).
Proof.
  intros Hk. unfold stored_sample.
  pose proof (exported_frame (mono rate xs) k Hk) as Hf.
  unfold AudioBuffer.numberOfChannels, mono in Hf.
  cbn [AudioBuffer.channelData length] in Hf.
  replace (2 * 1 * k)%nat with (2 * k)%nat in Hf by lia.
  change (2 * 1)%nat with 2%nat in Hf.
  unfold mono. rewrite Hf.
  unfold WavLayout.frame. cbn [flat_map]. rewrite app_nil_r.
  apply le_int16_sample.
Qed.

(** C6 (defect of the code).  The header helpers leave [pos] at 44 and the
    sample loop of lines 189-197 starts from that same [pos]: the first 44
    frames of a buffer are never written.  A mono buffer holding the one
    sample [1.0] is exported with the stored value 0, not 32767, and one
    holding [-1.0] with 0, not -32768. *)
Theorem first_frames_not_written :
  (exists bytes, Wav.encode (mono 24000 [JS.of_Z 1]) = Return bytes
                 /\ stored_sample bytes 0 = 0)
  /\ (exists bytes, Wav.encode (mono 24000 [JS.of_Z (-1)]) = Return bytes
                    /\ stored_sample bytes 0 = 0).
Proof.
  split.
  { eexists. split; [vm_compute; reflexivity|]. vm_compute. reflexivity. }
  eexists. split; [vm_compute; reflexivity|]. vm_compute. reflexivity.
Qed.

(** Through the decoder of section 4.1 as well: the PCM sample 1000,
    decoded and exported, comes back as 0. *)
Lemma roundtrip_first_sample_lost :
  exists b bytes,
    PcmDecoder.decode (pcm_bytes [1000]) 24000 1 = PcmDecoder.Decoded b
    /\ Wav.encode b = Return bytes
    /\ stored_sample bytes 0 = 0.
Proof.
  do 2 eexists. split; [vm_compute; reflexivity|].
  split; [vm_compute; reflexivity|]. vm_compute. reflexivity.
Qed.

(** The same samples at frame 44, the first one the loop reaches, are
    stored as 32767 and -32768. *)
Lemma frame_44_is_written :
  exists bytes,
    Wav.encode (mono 24000 (replicate 44 (JS.of_Z 0) ++ [JS.of_Z 1; JS.of_Z (-1)]))
    = Return bytes
    /\ stored_sample bytes 0 = 32767
    /\ stored_sample bytes 1 = -32768.
Proof.
  eexists. split; [vm_compute; reflexivity|].
  split; [vm_compute; reflexivity|]. vm_compute. reflexivity.
Qed.

(** ** Playback: what each handler does to the state *)

Lemma stopPlayback_None st :
  sourceNodeRef st = None ->
  stopPlayback st
  = {| currentAudioId := None; isPlaying := false;
       audioContextRef := audioContextRef st; analyserRef := analyserRef st;
       gainNodeRef := gainNodeRef st; sourceNodeRef := None;
       nodes := nodes st; calls := calls st |}.
Proof.
  intros Href. unfold stopPlayback. rewrite Href.
  unfold setCurrentAudioId, setIsPlaying. cbn. by rewrite Href.
Qed.

Lemma stopPlayback_Some st n nd :
  sourceNodeRef st = Some n -> nodes st !! n = Some nd -> started nd = true ->
  stopPlayback st
  = {| currentAudioId := None; isPlaying := false;
       audioContextRef := audioContextRef st; analyserRef := analyserRef st;
       gainNodeRef := gainNodeRef st; sourceNodeRef := None;
       nodes := alter mark_disconnected n (alter mark_stopped n (nodes st));
       calls := (calls st ++ [SourceStop n]) ++ [SourceDisconnect n] |}.
Proof.
  intros Href Hnd Hst. unfold stopPlayback, source_stop. rewrite Href, Hnd, Hst.
  reflexivity.
Qed.

(** When [stop()] throws, [disconnect()] is skipped and only the flags and
    the ref change. *)
Lemma stopPlayback_throw st n :
  sourceNodeRef st = Some n ->
  (forall nd, nodes st !! n = Some nd -> started nd = false) ->
  stopPlayback st
  = {| currentAudioId := None; isPlaying := false;
       audioContextRef := audioContextRef st; analyserRef := analyserRef st;
       gainNodeRef := gainNodeRef st; sourceNodeRef := None;
       nodes := nodes st; calls := calls st |}.
Proof.
  intros Href Hnd. unfold stopPlayback, source_stop. rewrite Href.
  destruct (nodes st !! n) as [nd|] eqn:E.
  - rewrite (Hnd nd eq_refl). reflexivity.
  - reflexivity.
Qed.

Lemma stopPlayback_flags st :
  currentAudioId (stopPlayback st) = None
  /\ isPlaying (stopPlayback st) = false
  /\ sourceNodeRef (stopPlayback st) = None
  /\ audioContextRef (stopPlayback st) = audioContextRef st
  /\ analyserRef (stopPlayback st) = analyserRef st
  /\ length (nodes (stopPlayback st)) = length (nodes st).
Proof.
  unfold stopPlayback, source_stop.
  destruct (sourceNodeRef st) as [n|] eqn:Href; [|done].
  destruct (nodes st !! n) as [nd|]; [|done].
  destruct (started nd); [|done].
  cbn. by rewrite !length_alter.
Qed.

Lemma playing_mark_stopped nd : playing (mark_stopped nd) = false.
Proof. unfold playing. cbn. by rewrite andb_false_r. Qed.

Lemma playing_mark_ended nd : playing (mark_ended nd) = false.
Proof. unfold playing. cbn. by rewrite andb_false_r. Qed.

Lemma playing_mark_disconnected nd :
  playing (mark_disconnected nd) = playing nd.
Proof. reflexivity. Qed.

Lemma stopPlayback_quiet st : consistent st -> quiet (stopPlayback st).
Proof.
  intros (Hplay & Href & _). intros m nd' Hm.
  destruct (sourceNodeRef st) as [n|] eqn:E.
  - destruct (Href n eq_refl) as (nd & Hnd & Hst).
    rewrite (stopPlayback_Some st n nd E Hnd Hst) in Hm. cbn in Hm.
    destruct (decide (n = m)) as [->|Hne].
    + rewrite !list_lookup_alter_eq, Hnd in Hm. injection Hm as <-.
      by rewrite playing_mark_disconnected, playing_mark_stopped.
    + rewrite !list_lookup_alter_ne in Hm by done.
      destruct (playing nd') eqn:P; [|done].
      specialize (Hplay m nd' Hm P). congruence.
  - rewrite (stopPlayback_None st E) in Hm. cbn in Hm.
    destruct (playing nd') eqn:P; [|done].
    specialize (Hplay m nd' Hm P). congruence.
Qed.

Lemma quiet_consistent st :
  quiet st -> sourceNodeRef st = None ->
  (is_Some (audioContextRef st) -> analyserRef st = true) ->
  consistent st.
Proof.
  intros Hq Href Hctx. split; [|split]; [| |exact Hctx].
  - intros n nd Hn P. rewrite (Hq n nd Hn) in P. discriminate.
  - intros n Hn. congruence.
Qed.

Lemma stopPlayback_consistent st : consistent st -> consistent (stopPlayback st).
Proof.
  intros Hc. destruct (stopPlayback_flags st) as (_ & _ & Href & Hctx & Han & _).
  apply quiet_consistent; [by apply stopPlayback_quiet|exact Href|].
  rewrite Hctx, Han. apply Hc.
Qed.

Lemma getAudioContext_spec st :
  (is_Some (audioContextRef st) -> analyserRef st = true) ->
  exists extra,
    calls (getAudioContext st) = calls st ++ extra
    /\ nodes (getAudioContext st) = nodes st
    /\ sourceNodeRef (getAudioContext st) = sourceNodeRef st
    /\ currentAudioId (getAudioContext st) = currentAudioId st
    /\ isPlaying (getAudioContext st) = isPlaying st
    /\ analyserRef (getAudioContext st) = true
    /\ is_Some (audioContextRef (getAudioContext st)).
Proof.
  intros Hctx. unfold getAudioContext.
  destruct st as [cur isp ctx an gn ref ns cs]. cbn in Hctx |- *.
  destruct ctx as [[| |]|]; cbn.
  - exists [Resume]. repeat split; eauto.
  - exists []. rewrite app_nil_r. repeat split; eauto.
  - exists []. rewrite app_nil_r. repeat split; eauto.
  - exists [NewAudioContext]. repeat split; eauto.
Qed.

Lemma alter_snoc {A} (f : A -> A) (l : list A) (x : A) :
  alter f (length l) (l ++ [x]) = l ++ [f x].
Proof. rewrite alter_app_r_alt by lia. by rewrite Nat.sub_diag. Qed.

Local Ltac unfold_new_source :=
  cbv [new_source log update_node set_nodes set_sourceNodeRef nodes calls
       analyserRef currentAudioId isPlaying audioContextRef gainNodeRef
       sourceNodeRef].

Lemma new_source_spec buf st :
  analyserRef st = true ->
  new_source buf st
  = {| currentAudioId := currentAudioId st; isPlaying := isPlaying st;
       audioContextRef := audioContextRef st; analyserRef := analyserRef st;
       gainNodeRef := gainNodeRef st;
       sourceNodeRef := Some (length (nodes st));
       nodes := nodes st ++ [started_source buf];
       calls := calls st ++ [CreateBufferSource (length (nodes st));
                             SourceConnect (length (nodes st));
                             SourceStart (length (nodes st))] |}.
Proof.
  intros Han. destruct st as [cur isp ctx an gn ref ns cs].
  cbn in Han. subst an. unfold_new_source.
  rewrite !alter_snoc.
  cbv [buffer connected onended started stopped ended].
  rewrite <- !app_assoc. reflexivity.
Qed.

Lemma startPlayback_None item st :
  audioBuffer item = None ->
  consistent st ->
  nodes (startPlayback item st) = nodes (stopPlayback st)
  /\ sourceNodeRef (startPlayback item st) = None
  /\ currentAudioId (startPlayback item st) = None
  /\ isPlaying (startPlayback item st) = false
  /\ analyserRef (startPlayback item st) = true
  /\ is_Some (audioContextRef (startPlayback item st))
  /\ exists extra, calls (startPlayback item st) = calls (stopPlayback st) ++ extra.
Proof.
  intros Hbuf Hc. unfold startPlayback. rewrite Hbuf.
  destruct (stopPlayback_flags st) as (Hcur & Hisp & Href & Hctx & Han & _).
  destruct (getAudioContext_spec (stopPlayback st))
    as (extra & Hcalls & Hnodes & Href' & Hcur' & Hisp' & Han' & Hsome).
  { rewrite Hctx, Han. apply Hc. }
  rewrite Hnodes, Href', Hcur', Hisp', Han', Hcalls. eauto 10.
Qed.

Lemma startPlayback_Some item buf st :
  audioBuffer item = Some buf ->
  consistent st ->
  nodes (startPlayback item st) = nodes (stopPlayback st) ++ [started_source buf]
  /\ sourceNodeRef (startPlayback item st) = Some (length (nodes st))
  /\ currentAudioId (startPlayback item st) = Some (id item)
  /\ isPlaying (startPlayback item st) = true
  /\ analyserRef (startPlayback item st) = true
  /\ is_Some (audioContextRef (startPlayback item st))
  /\ exists extra,
       calls (startPlayback item st)
       = calls (stopPlayback st) ++ extra
         ++ [CreateBufferSource (length (nodes st));
             SourceConnect (length (nodes st));
             SourceStart (length (nodes st))].
Proof.
  intros Hbuf Hc. unfold startPlayback. rewrite Hbuf.
  destruct (stopPlayback_flags st) as (_ & _ & _ & Hctx & Han & Hlen).
  destruct (getAudioContext_spec (stopPlayback st))
    as (extra & Hcalls & Hnodes & _ & _ & _ & Han' & Hsome).
  { rewrite Hctx, Han. apply Hc. }
  rewrite (new_source_spec buf _ Han'). cbn.
  rewrite Hnodes, Hcalls, Hlen, <- app_assoc. eauto 10.
Qed.

Lemma getAudioContext_consistent st :
  consistent st -> consistent (getAudioContext st).
Proof.
  intros (Hplay & Href & Hctx).
  destruct (getAudioContext_spec st Hctx)
    as (extra & _ & Hnodes & Href' & _ & _ & Han & _).
  split; [|split].
  - rewrite Hnodes, Href'. exact Hplay.
  - rewrite Hnodes, Href'. exact Href.
  - intros _. exact Han.
Qed.

Lemma startPlayback_consistent item st :
  consistent st -> consistent (startPlayback item st).
Proof.
  intros Hc. destruct (audioBuffer item) as [buf|] eqn:Hbuf.
  - destruct (startPlayback_Some item buf st Hbuf Hc)
      as (Hnodes & Href & _ & _ & Han & _ & _).
    pose proof (stopPlayback_quiet st Hc) as Hq.
    destruct (stopPlayback_flags st) as (_ & _ & _ & _ & _ & Hlen).
    split; [|split].
    + intros n nd Hn P. rewrite Href. f_equal.
      rewrite Hnodes in Hn. apply lookup_snoc_Some in Hn.
      destruct Hn as [[_ Hn]|[-> _]]; [|lia].
      rewrite (Hq n nd Hn) in P. discriminate.
    + intros n Hn. rewrite Href in Hn. injection Hn as <-.
      exists (started_source buf). split; [|reflexivity].
      rewrite Hnodes, <- Hlen. by apply list_lookup_middle.
    + intros _. exact Han.
  - unfold startPlayback. rewrite Hbuf.
    by apply getAudioContext_consistent, stopPlayback_consistent.
Qed.

Lemma playAudio_consistent item st :
  consistent st -> consistent (playAudio item st).
Proof.
  intros Hc. unfold playAudio.
  destruct (bool_decide _ && isPlaying st).
  - by apply stopPlayback_consistent.
  - by apply startPlayback_consistent.
Qed.

Lemma source_ended_consistent n st :
  consistent st -> consistent (source_ended n st).
Proof.
  intros Hc. unfold source_ended.
  destruct (nodes st !! n) as [nd|] eqn:Hnd; [|done].
  destruct (started nd && negb (ended nd)) eqn:Hfire; [|done].
  assert (Hmid : consistent (update_node n mark_ended st)).
  { destruct Hc as (Hplay & Href & Hctx). split; [|split]; cbn.
    - intros m nd' Hm P. destruct (decide (n = m)) as [->|Hne].
      + rewrite list_lookup_alter_eq, Hnd in Hm. injection Hm as <-.
        rewrite playing_mark_ended in P. discriminate.
      + rewrite list_lookup_alter_ne in Hm by done. eauto.
    - intros m Hm. destruct (Href m Hm) as (nd' & Hnd' & Hst).
      destruct (decide (n = m)) as [->|Hne].
      + exists (mark_ended nd'). by rewrite list_lookup_alter_eq, Hnd'.
      + exists nd'. by rewrite list_lookup_alter_ne.
    - exact Hctx. }
  destruct (onended nd); exact Hmid.
Qed.

Lemma consistent_initial : consistent initial.
Proof.
  split; [|split]; cbn.
  - intros n nd Hn. by rewrite lookup_nil in Hn.
  - intros n Hn. discriminate.
  - intros [x Hx]. discriminate.
Qed.

Lemma step_consistent a st : consistent st -> consistent (step a st).
Proof.
  intros Hc. destruct a as [item|item| |n|s]; cbn [step].
  - by apply playAudio_consistent.
  - by apply startPlayback_consistent.
  - by apply stopPlayback_consistent.
  - by apply source_ended_consistent.
  - destruct (audioContextRef st) eqn:E; [|done].
    destruct Hc as (Hplay & Href & Hctx).
    split; [exact Hplay|]. split; [exact Href|].
    intros _. apply Hctx. by rewrite E.
Qed.

Lemma run_consistent acts st : consistent st -> consistent (run acts st).
Proof.
  revert st. induction acts as [|a acts IH]; intros st Hc; [done|].
  cbn. apply IH. by apply step_consistent.
Qed.

Lemma run_app acts1 acts2 st :
  run (acts1 ++ acts2) st = run acts2 (run acts1 st).
Proof. unfold run. apply fold_left_app. Qed.

(** ** Counting the playing sources *)

Lemma filter_none {A} (f : A -> bool) (l : list A) :
  (forall x, In x l -> f x = false) -> List.filter f l = [].
Proof.
  induction l as [|x l IH]; intros Hall; [done|].
  cbn. rewrite (Hall x) by (by left). apply IH. intros y Hy. apply Hall. by right.
Qed.

Lemma playing_nodes_quiet st : quiet st -> playing_nodes st = [].
Proof.
  intros Hq. unfold playing_nodes. apply filter_none.
  intros n _. unfold node_playing.
  destruct (nodes st !! n) as [nd|] eqn:E; [|done]. by apply (Hq n nd).
Qed.

Lemma playing_nodes_snoc st l x :
  nodes st = l ++ [x] ->
  (forall n nd, l !! n = Some nd -> playing nd = false) ->
  playing x = true ->
  playing_nodes st = [length l].
Proof.
  intros Hnodes Hq Hx. unfold playing_nodes.
  rewrite Hnodes, length_app. cbn [length].
  rewrite List.seq_app, List.filter_app. cbn [seq List.filter Nat.add].
  rewrite filter_none.
  - unfold node_playing. rewrite Hnodes.
    rewrite list_lookup_middle by done. by rewrite Hx.
  - intros n Hn. apply in_seq in Hn. unfold node_playing. rewrite Hnodes.
    rewrite lookup_app_l by lia.
    destruct (l !! n) as [nd|] eqn:E; [|done]. by apply (Hq n nd).
Qed.

Lemma playing_nodes_ref st n :
  consistent st -> In n (playing_nodes st) -> sourceNodeRef st = Some n.
Proof.
  intros (Hplay & _ & _) Hin. unfold playing_nodes in Hin.
  apply List.filter_In in Hin. destruct Hin as [_ Hp].
  unfold node_playing in Hp.
  destruct (nodes st !! n) as [nd|] eqn:E; [|done]. eauto.
Qed.

Lemma NoDup_constant {A} (l : list A) (r : A) :
  List.NoDup l -> (forall x, In x l -> x = r) -> (length l <= 1)%nat.
Proof.
  intros Hnd Hall. destruct l as [|x [|y l]]; cbn; [lia|lia|].
  exfalso. inversion Hnd as [|? ? Hnotin _]; subst. apply Hnotin.
  rewrite (Hall x) by (by left). rewrite <- (Hall y) by (right; by left).
  by left.
Qed.

Lemma at_most_one_playing st :
  consistent st -> (length (playing_nodes st) <= 1)%nat.
Proof.
  intros Hc. destruct (playing_nodes st) as [|n rest] eqn:E; [cbn; lia|].
  rewrite <- E. apply (NoDup_constant _ n).
  - unfold playing_nodes. apply List.NoDup_filter, List.seq_NoDup.
  - intros m Hm.
    pose proof (playing_nodes_ref st m Hc Hm) as H1.
    pose proof (playing_nodes_ref st n Hc ltac:(rewrite E; by left)) as H2.
    congruence.
Qed.

(** C4.  After any sequence of toggles, starts, stops, [ended] events and
    context state changes from the initial state, at most one source is
    playing.  When [start A] is followed by [start B], the only playing
    source is the new one, carrying B's buffer and shown as B; A's source
    is stopped and disconnected, and its [disconnect()] comes before the
    [connect()] and [start()] of B's source. *)
Theorem single_playing_source (acts : list action) (A B : GeneratedAudio)
    (bufA bufB : AudioBuffer.t) :
  audioBuffer A = Some bufA ->
  audioBuffer B = Some bufB ->
  (length (playing_nodes (run acts initial)) <= 1)%nat
  /\ playing_nodes (run (acts ++ [Start A; Start B]) initial)
     = [S (length (nodes (run acts initial)))]
  /\ nodes (run (acts ++ [Start A; Start B]) initial)
       !! S (length (nodes (run acts initial)))
     = Some (started_source bufB)
  /\ nodes (run (acts ++ [Start A; Start B]) initial)
       !! length (nodes (run acts initial))
     = Some (mark_disconnected (mark_stopped (started_source bufA)))
  /\ currentAudioId (run (acts ++ [Start A; Start B]) initial) = Some (id B)
  /\ isPlaying (run (acts ++ [Start A; Start B]) initial) = true
  /\ exists before extra,
       calls (run (acts ++ [Start A; Start B]) initial)
       = before
         ++ [SourceStop (length (nodes (run acts initial)));
             SourceDisconnect (length (nodes (run acts initial)))]
         ++ extra
         ++ [CreateBufferSource (S (length (nodes (run acts initial))));
             SourceConnect (S (length (nodes (run acts initial))));
             SourceStart (S (length (nodes (run acts initial))))].
Proof.
  intros HA HB.
  pose proof (run_consistent acts initial consistent_initial) as Hc.
  split; [by apply at_most_one_playing|].
  rewrite run_app. cbn [run fold_left step].
  set (st := fold_left (fun s a => step a s) acts initial) in *.
  change (run acts initial) with st in *.
  set (nA := length (nodes st)).
  destruct (startPlayback_Some A bufA st HA Hc)
    as (Hnodes1 & Href1 & _ & _ & _ & _ & _).
  pose proof (startPlayback_consistent A st Hc) as Hc1.
  destruct (stopPlayback_flags st) as (_ & _ & _ & _ & _ & Hlen0).
  set (st1 := startPlayback A st) in *.
  assert (HnA : nodes st1 !! nA = Some (started_source bufA)).
  { rewrite Hnodes1. apply list_lookup_middle. by rewrite Hlen0. }
  assert (Hlen1 : length (nodes st1) = S nA).
  { rewrite Hnodes1, length_app, Hlen0. cbn. unfold nA. lia. }
  pose proof (stopPlayback_Some st1 nA _ Href1 HnA eq_refl) as Hstop.
  destruct (startPlayback_Some B bufB st1 HB Hc1)
    as (Hnodes2 & _ & Hcur2 & Hisp2 & _ & _ & extra & Hcalls2).
  pose proof (stopPlayback_quiet st1 Hc1) as Hq.
  destruct (stopPlayback_flags st1) as (_ & _ & _ & _ & _ & Hlen).
  rewrite Hlen1 in Hcalls2.
  split; [|split; [|split; [|split; [|split]]]].
  - rewrite (playing_nodes_snoc _ _ _ Hnodes2 Hq eq_refl). by rewrite Hlen, Hlen1.
  - rewrite Hnodes2. apply list_lookup_middle. by rewrite Hlen, Hlen1.
  - rewrite Hnodes2, lookup_app_l by (rewrite Hlen, Hlen1; lia).
    rewrite Hstop. cbn [nodes].
    by rewrite !list_lookup_alter_eq, HnA.
  - exact Hcur2.
  - exact Hisp2.
  - exists (calls st1), extra. rewrite Hcalls2, Hstop. cbn [calls].
    by rewrite <- !app_assoc.
Qed.

Lemma single_playing_source_witness :
  (length (playing_nodes (run [Toggle (record_of "a" (Some (mono 24000 [JS.of_Z 0])))]
                              initial)) <= 1)%nat
  /\ playing_nodes
       (run ([Toggle (record_of "a" (Some (mono 24000 [JS.of_Z 0])))]
             ++ [Start (record_of "a" (Some (mono 24000 [JS.of_Z 0])));
                 Start (record_of "b" (Some (mono 24000 [JS.of_Z 1])))])
            initial)
     = [2%nat].
Proof.
  destruct (single_playing_source
              [Toggle (record_of "a" (Some (mono 24000 [JS.of_Z 0])))]
              (record_of "a" (Some (mono 24000 [JS.of_Z 0])))
              (record_of "b" (Some (mono 24000 [JS.of_Z 1])))
              (mono 24000 [JS.of_Z 0]) (mono 24000 [JS.of_Z 1])
              eq_refl eq_refl) as (H1 & H2 & _).
  split; [exact H1|exact H2].
Defined.

(** ** Toggle *)

Lemma active_stopPlayback item st : active item (stopPlayback st) = false.
Proof.
  unfold active. destruct (stopPlayback_flags st) as (-> & -> & _).
  by rewrite andb_false_r.
Qed.

Lemma active_startPlayback item buf st :
  audioBuffer item = Some buf -> active item (startPlayback item st) = true.
Proof.
  intros Hbuf. unfold active, startPlayback. rewrite Hbuf. cbn.
  by rewrite bool_decide_eq_true_2.
Qed.

(** C7, the claim as stated fails: two toggles of one item do not bring
    the player back to its play/stop state when another item was playing.
    With "b" playing, toggling "a" twice leaves nothing playing. *)
Lemma toggle_twice_other_playing :
  isPlaying (playAudio (record_of "b" (Some (mono 24000 [JS.of_Z 0]))) initial) = true
  /\ playing_nodes (playAudio (record_of "b" (Some (mono 24000 [JS.of_Z 0]))) initial)
     = [0%nat]
  /\ isPlaying
       (playAudio (record_of "a" (Some (mono 24000 [JS.of_Z 1])))
          (playAudio (record_of "a" (Some (mono 24000 [JS.of_Z 1])))
             (playAudio (record_of "b" (Some (mono 24000 [JS.of_Z 0]))) initial)))
     = false
  /\ playing_nodes
       (playAudio (record_of "a" (Some (mono 24000 [JS.of_Z 1])))
          (playAudio (record_of "a" (Some (mono 24000 [JS.of_Z 1])))
             (playAudio (record_of "b" (Some (mono 24000 [JS.of_Z 0]))) initial)))
     = [].
Proof. repeat split; reflexivity. Qed.

(** C7 (amended).  In a state reached from the initial one, [playAudio item]
    on an item with a buffer stops playback when the item is the one shown
    as playing (no source plays afterwards) and otherwise starts it (the
    new source, carrying the item's buffer, is the only one playing);
    applied twice in a row it leaves that item playing exactly if it was
    playing before. *)
Theorem toggle_play_stop (acts : list action) (item : GeneratedAudio)
    (buf : AudioBuffer.t) :
  audioBuffer item = Some buf ->
  (active item (run acts initial) = true ->
     isPlaying (playAudio item (run acts initial)) = false
     /\ currentAudioId (playAudio item (run acts initial)) = None
     /\ playing_nodes (playAudio item (run acts initial)) = [])
  /\ (active item (run acts initial) = false ->
        isPlaying (playAudio item (run acts initial)) = true
        /\ currentAudioId (playAudio item (run acts initial)) = Some (id item)
        /\ playing_nodes (playAudio item (run acts initial))
           = [length (nodes (run acts initial))]
        /\ nodes (playAudio item (run acts initial))
             !! length (nodes (run acts initial))
           = Some (started_source buf))
  /\ active item (playAudio item (playAudio item (run acts initial)))
     = active item (run acts initial).
Proof.
  intros Hbuf.
  pose proof (run_consistent acts initial consistent_initial) as Hc.
  set (st := run acts initial) in *.
  split; [|split].
  - intros Hact. unfold playAudio. fold (active item st). rewrite Hact.
    destruct (stopPlayback_flags st) as (Hcur & Hisp & _).
    split; [exact Hisp|]. split; [exact Hcur|].
    by apply playing_nodes_quiet, stopPlayback_quiet.
  - intros Hact. unfold playAudio. fold (active item st). rewrite Hact.
    destruct (startPlayback_Some item buf st Hbuf Hc)
      as (Hnodes & _ & Hcur & Hisp & _).
    destruct (stopPlayback_flags st) as (_ & _ & _ & _ & _ & Hlen).
    split; [exact Hisp|]. split; [exact Hcur|]. split.
    + rewrite (playing_nodes_snoc _ _ _ Hnodes (stopPlayback_quiet st Hc) eq_refl).
      by rewrite Hlen.
    + rewrite Hnodes. by apply list_lookup_middle.
  - destruct (active item st) eqn:Hact.
    + unfold playAudio at 2. fold (active item st). rewrite Hact.
      unfold playAudio. fold (active item (stopPlayback st)).
      rewrite active_stopPlayback. by apply active_startPlayback with buf.
    + unfold playAudio at 2. fold (active item st). rewrite Hact.
      unfold playAudio. fold (active item (startPlayback item st)).
      rewrite (active_startPlayback item buf) by done.
      apply active_stopPlayback.
Qed.

Lemma toggle_play_stop_witness :
  active (record_of "a" (Some (mono 24000 [JS.of_Z 0])))
         (playAudio (record_of "a" (Some (mono 24000 [JS.of_Z 0])))
            (playAudio (record_of "a" (Some (mono 24000 [JS.of_Z 0])))
               (run [] initial)))
  = active (record_of "a" (Some (mono 24000 [JS.of_Z 0]))) (run [] initial).
Proof.
  apply (toggle_play_stop [] (record_of "a" (Some (mono 24000 [JS.of_Z 0])))
           (mono 24000 [JS.of_Z 0]) eq_refl).
Defined.

(** ** Completion *)

Lemma nodes_setIsPlaying b st : nodes (setIsPlaying b st) = nodes st.
Proof. reflexivity. Qed.

Lemma nodes_setCurrentAudioId v st : nodes (setCurrentAudioId v st) = nodes st.
Proof. reflexivity. Qed.

Lemma getAudioContext_nodes st : nodes (getAudioContext st) = nodes st.
Proof.
  unfold getAudioContext. destruct st as [cur isp ctx an gn ref ns cs].
  by destruct ctx as [[| |]|].
Qed.

Lemma new_source_nodes buf st :
  exists x, nodes (new_source buf st) = nodes st ++ [x]
            /\ buffer x = Some buf /\ onended x = true /\ playing x = true.
Proof.
  destruct st as [cur isp ctx an gn ref ns cs].
  destruct an; unfold_new_source; rewrite !alter_snoc;
    eexists; (split; [reflexivity|]); done.
Qed.

Lemma halted_alter n m f st :
  (forall nd, started (f nd) = started nd) ->
  (forall nd, playing nd = false -> playing (f nd) = false) ->
  halted n st -> halted n (update_node m f st).
Proof.
  intros Hs Hp (nd & Hnd & Hst & Hpl). unfold halted, update_node. cbn.
  destruct (decide (m = n)) as [->|Hne].
  - exists (f nd). rewrite list_lookup_alter_eq, Hnd. cbn.
    rewrite Hs. auto.
  - exists nd. by rewrite list_lookup_alter_ne.
Qed.

Lemma halted_stopPlayback n st : halted n st -> halted n (stopPlayback st).
Proof.
  intros Hh. unfold stopPlayback, source_stop.
  destruct (sourceNodeRef st) as [m|]; [|exact Hh].
  destruct (nodes st !! m) as [nd|]; [|exact Hh].
  destruct (started nd); [|exact Hh].
  apply (halted_alter n m mark_disconnected
           (log (SourceStop m) (update_node m mark_stopped st))); [done|done|].
  apply (halted_alter n m mark_stopped st); [done| |exact Hh].
  intros nd' _. apply playing_mark_stopped.
Qed.

Lemma halted_startPlayback n item st :
  halted n st -> halted n (startPlayback item st).
Proof.
  intros Hh. apply halted_stopPlayback in Hh.
  destruct Hh as (nd & Hnd & Hst & Hpl).
  unfold startPlayback, halted.
  destruct (audioBuffer item) as [buf|].
  - destruct (new_source_nodes buf (getAudioContext (stopPlayback st)))
      as (x & Hx & _).
    exists nd. split; [|auto].
    rewrite nodes_setIsPlaying, nodes_setCurrentAudioId.
    rewrite Hx, getAudioContext_nodes.
    by rewrite lookup_app_l by (by apply lookup_lt_Some in Hnd).
  - rewrite getAudioContext_nodes. eauto.
Qed.

Lemma halted_source_ended n m st : halted n st -> halted n (source_ended m st).
Proof.
  intros Hh. unfold source_ended.
  destruct (nodes st !! m) as [nd|]; [|exact Hh].
  destruct (started nd && negb (ended nd)); [|exact Hh].
  assert (halted n (update_node m mark_ended st)) as Hh'.
  { apply halted_alter; [done| |exact Hh]. intros nd' _. apply playing_mark_ended. }
  destruct (onended nd); exact Hh'.
Qed.

Lemma halted_step n a st : halted n st -> halted n (step a st).
Proof.
  intros Hh. destruct a as [item|item| |m|s]; cbn [step].
  - unfold playAudio. destruct (_ && _).
    + by apply halted_stopPlayback.
    + by apply halted_startPlayback.
  - by apply halted_startPlayback.
  - by apply halted_stopPlayback.
  - by apply halted_source_ended.
  - destruct (audioContextRef st); exact Hh.
Qed.

Lemma halted_run n acts st : halted n st -> halted n (run acts st).
Proof.
  revert st. induction acts as [|a acts IH]; intros st Hh; [done|].
  cbn. apply IH. by apply halted_step.
Qed.

(** C8.  Starting an item with a buffer makes a new source whose
    [onended] handler is set.  When that source's [ended] event fires, the
    source is halted, [isPlaying] is false and [currentAudioId] is
    cleared.  Whatever happens later, the source stays halted; a later
    start makes a source of its own, at a new index, and the halted one
    stays halted. *)
Theorem completion_callback (acts later : list action)
    (item next : GeneratedAudio) (buf buf' : AudioBuffer.t) :
  audioBuffer item = Some buf ->
  audioBuffer next = Some buf' ->
  nodes (startPlayback item (run acts initial)) !! length (nodes (run acts initial))
  = Some (started_source buf)
  /\ onended (started_source buf) = true
  /\ isPlaying (source_ended (length (nodes (run acts initial)))
                  (startPlayback item (run acts initial))) = false
  /\ currentAudioId (source_ended (length (nodes (run acts initial)))
                       (startPlayback item (run acts initial))) = None
  /\ halted (length (nodes (run acts initial)))
       (source_ended (length (nodes (run acts initial)))
          (startPlayback item (run acts initial)))
  /\ halted (length (nodes (run acts initial)))
       (run later (source_ended (length (nodes (run acts initial)))
                     (startPlayback item (run acts initial))))
  /\ (length (nodes (run acts initial))
      < length (nodes (run later (source_ended (length (nodes (run acts initial)))
                                    (startPlayback item (run acts initial))))))%nat
  /\ sourceNodeRef
       (startPlayback next
          (run later (source_ended (length (nodes (run acts initial)))
                        (startPlayback item (run acts initial)))))
     = Some (length (nodes (run later (source_ended (length (nodes (run acts initial)))
                                         (startPlayback item (run acts initial))))))
  /\ nodes
       (startPlayback next
          (run later (source_ended (length (nodes (run acts initial)))
                        (startPlayback item (run acts initial)))))
       !! length (nodes (run later (source_ended (length (nodes (run acts initial)))
                                      (startPlayback item (run acts initial)))))
     = Some (started_source buf')
  /\ halted (length (nodes (run acts initial)))
       (startPlayback next
          (run later (source_ended (length (nodes (run acts initial)))
                        (startPlayback item (run acts initial))))).
Proof.
  intros Hbuf Hbuf'.
  pose proof (run_consistent acts initial consistent_initial) as Hc.
  set (st := run acts initial) in *. set (n := length (nodes st)).
  destruct (startPlayback_Some item buf st Hbuf Hc) as (Hnodes & _).
  destruct (stopPlayback_flags st) as (_ & _ & _ & _ & _ & Hlen).
  pose proof (startPlayback_consistent item st Hc) as Hc1.
  set (st1 := startPlayback item st) in *.
  assert (Hn : nodes st1 !! n = Some (started_source buf)).
  { rewrite Hnodes. by apply list_lookup_middle. }
  assert (Hended : source_ended n st1
                   = setCurrentAudioId None
                       (setIsPlaying false (update_node n mark_ended st1))).
  { unfold source_ended. by rewrite Hn. }
  pose proof (source_ended_consistent n st1 Hc1) as Hc2.
  assert (Hh : halted n (source_ended n st1)).
  { rewrite Hended. exists (mark_ended (started_source buf)). cbn.
    by rewrite list_lookup_alter_eq, Hn. }
  set (st2 := source_ended n st1) in *.
  pose proof (halted_run n later st2 Hh) as Hh3.
  pose proof (run_consistent later st2 Hc2) as Hc3.
  set (st3 := run later st2) in *.
  destruct (startPlayback_Some next buf' st3 Hbuf' Hc3) as (Hnodes4 & Href4 & _).
  destruct (stopPlayback_flags st3) as (_ & _ & _ & _ & _ & Hlen3).
  split; [exact Hn|]. split; [reflexivity|].
  split; [by rewrite Hended|]. split; [by rewrite Hended|].
  split; [exact Hh|]. split; [exact Hh3|].
  split; [destruct Hh3 as (nd & Hnd & _); by apply lookup_lt_Some in Hnd|].
  split; [exact Href4|].
  split; [rewrite Hnodes4; by apply list_lookup_middle|].
  by apply halted_startPlayback.
Qed.

Lemma completion_callback_witness :
  isPlaying (source_ended 0 (startPlayback (record_of "a" (Some (mono 24000 [JS.of_Z 0])))
                               (run [] initial))) = false
  /\ sourceNodeRef
       (startPlayback (record_of "b" (Some (mono 24000 [JS.of_Z 1])))
          (run [Stop]
             (source_ended 0 (startPlayback (record_of "a" (Some (mono 24000 [JS.of_Z 0])))
                                (run [] initial)))))
     = Some 1%nat.
Proof.
  destruct (completion_callback [] [Stop]
              (record_of "a" (Some (mono 24000 [JS.of_Z 0])))
              (record_of "b" (Some (mono 24000 [JS.of_Z 1])))
              (mono 24000 [JS.of_Z 0]) (mono 24000 [JS.of_Z 1]) eq_refl eq_refl)
    as (_ & _ & H1 & _ & _ & _ & _ & H2 & _).
  split; [exact H1|exact H2].
Defined.

(** ** Records without a buffer *)

(** C10, the claim as stated fails: playing a record without a buffer is
    not a no-op.  While another record plays, it stops that playback; from
    the initial state, it creates the audio context. *)
Lemma play_without_buffer_has_effects :
  isPlaying (playAudio (record_of "b" (Some (mono 24000 [JS.of_Z 0]))) initial) = true
  /\ playing_nodes (playAudio (record_of "b" (Some (mono 24000 [JS.of_Z 0]))) initial)
     = [0%nat]
  /\ isPlaying (playAudio (record_of "n" None)
                  (playAudio (record_of "b" (Some (mono 24000 [JS.of_Z 0]))) initial))
     = false
  /\ playing_nodes (playAudio (record_of "n" None)
                      (playAudio (record_of "b" (Some (mono 24000 [JS.of_Z 0]))) initial))
     = []
  /\ playAudio (record_of "n" None)
       (playAudio (record_of "b" (Some (mono 24000 [JS.of_Z 0]))) initial)
     <> playAudio (record_of "b" (Some (mono 24000 [JS.of_Z 0]))) initial
  /\ calls (playAudio (record_of "n" None) initial) = [NewAudioContext].
Proof.
  split; [reflexivity|]. split; [reflexivity|].
  split; [reflexivity|]. split; [reflexivity|].
  split; [|reflexivity].
  intros Heq. apply (f_equal isPlaying) in Heq. discriminate Heq.
Qed.

(** C10 (amended).  For a record without a buffer the export returns at
    once: no bytes, nothing thrown.  Playing it creates no source node and
    throws nothing, but it does stop whatever was playing: afterwards no
    source plays, [isPlaying] is false, and [currentAudioId] and
    [sourceNodeRef] are cleared; unless the record was the one shown as
    playing, the audio context exists afterwards. *)
Theorem null_buffer_play_and_export (acts : list action) (item : GeneratedAudio) :
  audioBuffer item = None ->
  handleDownload item = Return None
  /\ length (nodes (playAudio item (run acts initial)))
     = length (nodes (run acts initial))
  /\ playing_nodes (playAudio item (run acts initial)) = []
  /\ isPlaying (playAudio item (run acts initial)) = false
  /\ currentAudioId (playAudio item (run acts initial)) = None
  /\ sourceNodeRef (playAudio item (run acts initial)) = None
  /\ (active item (run acts initial) = false ->
      is_Some (audioContextRef (playAudio item (run acts initial)))).
Proof.
  intros Hbuf.
  pose proof (run_consistent acts initial consistent_initial) as Hc.
  set (st := run acts initial) in *.
  split; [unfold handleDownload; by rewrite Hbuf|].
  destruct (stopPlayback_flags st) as (Hcur & Hisp & Href & _ & _ & Hlen).
  pose proof (stopPlayback_quiet st Hc) as Hq.
  unfold playAudio. fold (active item st). destruct (active item st).
  - split; [exact Hlen|]. split; [by apply playing_nodes_quiet|]. done.
  - destruct (startPlayback_None item st Hbuf Hc)
      as (Hnodes & Href' & Hcur' & Hisp' & _ & Hsome & _).
    split; [by rewrite Hnodes|]. split; [|done].
    apply playing_nodes_quiet. intros n nd Hn. rewrite Hnodes in Hn. eauto.
Qed.

Lemma null_buffer_play_and_export_witness :
  handleDownload (record_of "n" None) = Return None
  /\ length (nodes (playAudio (record_of "n" None)
                      (run [Toggle (record_of "b" (Some (mono 24000 [JS.of_Z 0])))]
                           initial)))
     = 1%nat.
Proof.
  destruct (null_buffer_play_and_export
              [Toggle (record_of "b" (Some (mono 24000 [JS.of_Z 0])))]
              (record_of "n" None) eq_refl) as (H1 & H2 & _).
  split; [exact H1|exact H2].
Defined.

(** ** The visualizer loop *)

Lemma frames_running_inactive (data : list Z) (n : nat) :
  forall v,
    is_Some (Visualizer.pending v) ->
    is_Some (Visualizer.pending
               (Visualizer.frames false (replicate n (running, data)) v))
    /\ Visualizer.draws (Visualizer.frames false (replicate n (running, data)) v)
       = (Visualizer.draws v + n)%nat.
Proof.
  induction n as [|n IH]; intros v Hp.
  - cbn. split; [exact Hp|lia].
  - cbn [replicate Visualizer.frames]. destruct Hp as [r Hr].
    destruct (IH (Visualizer.frame false running data v)) as (IH1 & IH2).
    { unfold Visualizer.frame. rewrite Hr. cbn. eauto. }
    split; [exact IH1|]. rewrite IH2.
    unfold Visualizer.frame. rewrite Hr. cbn. lia.
Qed.

(** While nothing plays and the context is suspended or closed, [draw]
    paints the flat line and requests no frame. *)
Lemma draw_inactive_suspended data v :
  Visualizer.pending v = None ->
  Visualizer.pending (Visualizer.draw false suspended data v) = None
  /\ Visualizer.canvas (Visualizer.draw false suspended data v)
     = Visualizer.FlatLine.
Proof. intros Hp. cbn. by rewrite Hp. Qed.

(** The cleanup of the effect cancels the request the loop holds. *)
Lemma cleanup_cancels isPlaying ctx data :
  Visualizer.pending
    (Visualizer.cleanup
       (Visualizer.effect true isPlaying ctx data Visualizer.initial))
  = None.
Proof. destruct isPlaying, ctx; reflexivity. Qed.

(** C9 (defect of the code).  With [isPlaying = false] and the context
    [running], the state the player is in once a playback has ended, the
    effect's [draw] requests a new frame at every refresh: after any number
    [n] of refreshes a request is still outstanding, [draw] has run
    [n + 1] times, and the canvas shows the analyser's bars, not the flat
    line. *)
Theorem draw_loop_keeps_running (n : nat) (data : list Z) :
  isPlaying (source_ended 0 (playAudio (record_of "a" (Some (mono 24000 [JS.of_Z 0])))
                               initial)) = false
  /\ analyserRef (source_ended 0 (playAudio (record_of "a" (Some (mono 24000 [JS.of_Z 0])))
                                    initial)) = true
  /\ audioContextRef (source_ended 0 (playAudio (record_of "a" (Some (mono 24000 [JS.of_Z 0])))
                                        initial)) = Some running
  /\ is_Some (Visualizer.pending
                (Visualizer.frames false (replicate n (running, data))
                   (Visualizer.effect true false running data Visualizer.initial)))
  /\ Visualizer.draws
       (Visualizer.frames false (replicate n (running, data))
          (Visualizer.effect true false running data Visualizer.initial))
     = S n
  /\ Visualizer.canvas (Visualizer.effect true false running data Visualizer.initial)
     = Visualizer.Bars data.
Proof.
  split; [reflexivity|]. split; [reflexivity|]. split; [reflexivity|].
  destruct (frames_running_inactive data n
              (Visualizer.effect true false running data Visualizer.initial))
    as (Hp & Hd).
  { cbn. eauto. }
  split; [exact Hp|]. split; [rewrite Hd; reflexivity|reflexivity].
Qed.

(** * Further properties of the code *)

(** ** The export as a whole *)

Lemma Forall_le_bytes n v : Forall is_byte (le_bytes n v).
Proof.
  unfold le_bytes. apply Forall_forall. intros x Hx.
  apply list_elem_of_fmap in Hx. destruct Hx as (k & -> & _).
  apply byte_of_range.
Qed.

Lemma Forall_frame channels p : Forall is_byte (WavLayout.frame channels p).
Proof.
  unfold WavLayout.frame. induction channels as [|ch chs IH]; cbn [flat_map].
  - constructor.
  - apply Forall_app. split; [apply Forall_le_bytes|exact IH].
Qed.

Lemma Forall_file b : Forall is_byte (WavLayout.file b).
Proof.
  unfold WavLayout.file, WavLayout.header, WavLayout.data.
  repeat (apply Forall_app; split); try apply Forall_le_bytes.
  - generalize (seq 44 (AudioBuffer.length b - 44)). intros ps.
    induction ps as [|p ps IH]; cbn [flat_map]; [constructor|].
    apply Forall_app. split; [apply Forall_frame|exact IH].
  - apply Forall_replicate. unfold is_byte. lia.
Qed.

(** X1.  The download of a record with a buffer always succeeds, whatever
    the buffer's channel count, length or channel arrays: no [DataView]
    write leaves the [ArrayBuffer], the loops end, and the blob is typed
    [audio/wav], has [44 + length * channels * 2] bytes, each in
    [0, 255]. *)
Theorem download_always_returns (item : GeneratedAudio) (b : AudioBuffer.t) :
  audioBuffer item = Some b ->
  exists d,
    handleDownload item = Return (Some d)
    /\ length (blob d)
       = (44 + AudioBuffer.length b * AudioBuffer.numberOfChannels b * 2)%nat
    /\ blob_type d = "audio/wav"
    /\ Forall is_byte (blob d).
Proof.
  intros Hbuf. unfold handleDownload. rewrite Hbuf, encode_spec.
  eexists. split; [reflexivity|]. cbn [blob blob_type].
  split; [apply length_file|]. split; [reflexivity|apply Forall_file].
Qed.

Lemma download_always_returns_witness :
  exists d,
    handleDownload (record_of "a" (Some (AudioBuffer.mk 24000 3 [[JS.NaN]; []])))
    = Return (Some d)
    /\ length (blob d) = 56%nat.
Proof.
  destruct (download_always_returns
              (record_of "a" (Some (AudioBuffer.mk 24000 3 [[JS.NaN]; []])))
              (AudioBuffer.mk 24000 3 [[JS.NaN]; []]) eq_refl)
    as (d & Hd & Hlen & _).
  exists d. split; [exact Hd|exact Hlen].
Defined.



(** ** The sample conversion of lines 191-192 *)

(** X3.  Whatever number a channel array holds (finite, NaN or infinite),
    the integer computed for it lies in the signed 16-bit range, so
    [setInt16] stores it without wrap-around and [getInt16] reads it
    back. *)
Theorem sample_always_int16 (x : JS.number) :
  -32768 <= Wav.sample_int16 x <= 32767
  /\ le_int16 (le_bytes 2 (Wav.sample_int16 x)) = Wav.sample_int16 x.
Proof.
  pose proof (sample_int16_range x) as Hr. split; [exact Hr|].
  apply le_int16_le_bytes. lia.
Qed.

(** X4.  Saturation: every sample of 1 or more, and positive infinity, is
    stored as 32767; every sample of -1 or less, and negative infinity, as
    -32768; NaN is stored as 0. *)
Theorem sample_saturates (q : Q) :
  ((1 <= q)%Q -> Wav.sample_int16 (JS.Fin q) = 32767)
  /\ ((q <= -1)%Q -> Wav.sample_int16 (JS.Fin q) = -32768)
  /\ Wav.sample_int16 JS.PosInf = 32767
  /\ Wav.sample_int16 JS.NegInf = -32768
  /\ Wav.sample_int16 JS.NaN = 0.
Proof.
  split; [|split; [|repeat split; reflexivity]].
  - intros Hq. unfold Wav.sample_int16. rewrite clamp_Fin.
    apply Qle_bool_iff in Hq. rewrite Hq. reflexivity.
  - intros Hq. unfold Wav.sample_int16. rewrite clamp_Fin.
    assert (H1 : Qle_bool 1 q = false).
    { destruct (Qle_bool 1 q) eqn:E; [|done]. apply Qle_bool_iff in E.
      exfalso. apply (Qlt_irrefl 1).
      eapply Qle_lt_trans; [exact E|]. eapply Qle_lt_trans; [exact Hq|]. done. }
    apply Qle_bool_iff in Hq. rewrite H1, Hq. reflexivity.
Qed.

Lemma sample_saturates_witness :
  Wav.sample_int16 (JS.Fin (7 # 2)) = 32767
  /\ Wav.sample_int16 (JS.Fin (-3)) = -32768.
Proof.
  split.
  - apply (proj1 (sample_saturates (7 # 2))). unfold Qle. cbn. lia.
  - apply (proj1 (proj2 (sample_saturates (-3)))). unfold Qle. cbn. lia.
Defined.

(** X5.  Inside [[-1, 1]] the stored integer is the sample times 32768,
    truncated toward zero, when the sample is below [-1/2], and the sample
    times 32767, truncated toward zero, from [-1/2] on. *)
Theorem sample_formula (q : Q) :
  ((-1 <= q)%Q -> (q < -(1 # 2))%Q ->
   Wav.sample_int16 (JS.Fin q) = JS.Qtrunc (q * inject_Z 32768))
  /\ ((-(1 # 2) <= q)%Q -> (q <= 1)%Q ->
      Wav.sample_int16 (JS.Fin q) = JS.Qtrunc (q * inject_Z 32767)).
Proof.
  destruct q as [n d]. unfold Qle, Qlt, JS.Qtrunc. cbn. rewrite !Pos.mul_1_r.
  unfold Wav.sample_int16. rewrite clamp_Fin.
  destruct (Qle_bool 1 (n # d)) eqn:E1; unfold Qle_bool in E1; cbn in E1;
    [apply Z.leb_le in E1|apply Z.leb_gt in E1];
    (destruct (Qle_bool (n # d) (-1)) eqn:E2; unfold Qle_bool in E2; cbn in E2;
     [apply Z.leb_le in E2|apply Z.leb_gt in E2]).
  - split; intros Hlo Hhi; try lia.
  - split; intros Hlo Hhi; [lia|].
    assert (n = Zpos d) as -> by lia.
    replace (Zpos d * 32767) with (32767 * Zpos d) by lia.
    rewrite Z.quot_mul by lia. reflexivity.
  - split; intros Hlo Hhi; [|lia].
    assert (n = - Zpos d) as -> by lia.
    replace (- Zpos d * 32768) with (-32768 * Zpos d) by lia.
    rewrite Z.quot_mul by lia. reflexivity.
  - split; intros Hlo Hhi.
    + rewrite scale_Fin by lia. rewrite decide_True by lia. reflexivity.
    + rewrite scale_Fin by lia. rewrite decide_False by lia. reflexivity.
Qed.

Lemma sample_formula_witness :
  Wav.sample_int16 (JS.Fin (-3 # 4)) = -24576
  /\ Wav.sample_int16 (JS.Fin (1 # 3)) = 10922.
Proof.
  split.
  - apply (proj1 (sample_formula (-3 # 4))); unfold Qle, Qlt; cbn; lia.
  - apply (proj2 (sample_formula (1 # 3))); unfold Qle, Qlt; cbn; lia.
Defined.

(** X7.  A 16-bit sample [x], divided by 32768 and converted back by
    lines 191-192, comes back exactly when [x < -16384] or [x = 0], one
    step closer to zero otherwise: re-encoding lowers the magnitude of
    every other sample by one. *)
Theorem int16_reencoded (x : Z) :
  -32768 <= x <= 32767 ->
  Wav.sample_int16 (JS.Fin (x # 32768))
  = if decide (x < -16384) then x
    else if decide (x < 0) then x + 1
    else if decide (x = 0) then 0
    else x - 1.
Proof.
  intros Hx. unfold Wav.sample_int16. rewrite clamp_Fin.
  assert (H1 : Qle_bool 1 (x # 32768) = false).
  { unfold Qle_bool. cbn. apply Z.leb_gt. lia. }
  rewrite H1.
  destruct (Qle_bool (x # 32768) (-1)) eqn:H2; unfold Qle_bool in H2; cbn in H2.
  - apply Z.leb_le in H2. assert (x = -32768) as -> by lia. reflexivity.
  - apply Z.leb_gt in H2. rewrite scale_Fin by lia.
    repeat case_decide; try lia.
    + rewrite Z.quot_mul by lia. reflexivity.
    + Z.quot_rem_to_equations. lia.
    + subst x. reflexivity.
    + Z.quot_rem_to_equations. lia.
Qed.

Lemma int16_reencoded_witness :
  Wav.sample_int16 (JS.Fin (1000 # 32768)) = 999
  /\ Wav.sample_int16 (JS.Fin (-20000 # 32768)) = -20000.
Proof.
  split.
  - apply (int16_reencoded 1000). lia.
  - apply (int16_reencoded (-20000)). lia.
Defined.

Lemma div_cross_mono (a c : Z) (b d : positive) :
  a * Zpos d <= c * Zpos b -> a / Zpos b <= c / Zpos d.
Proof.
  intros Hle. apply Z.div_le_lower_bound; [lia|].
  pose proof (Z.mul_div_le a (Zpos b) ltac:(lia)) as Ht.
  set (t := a / Zpos b) in *.
  assert (Zpos d * (Zpos b * t) <= Zpos d * a) as H1
    by (apply Z.mul_le_mono_nonneg_l; lia).
  apply (Z.mul_le_mono_pos_l _ _ (Zpos b)); [lia|]. nia.
Qed.

Lemma quot_cross_mono (a c : Z) (b d : positive) :
  a * Zpos d <= c * Zpos b -> Z.quot a (Zpos b) <= Z.quot c (Zpos d).
Proof.
  intros Hle.
  destruct (Z_lt_le_dec a 0) as [Ha|Ha]; destruct (Z_lt_le_dec c 0) as [Hc|Hc].
  - assert (exists a', a = - a' /\ 0 < a') as (a' & -> & Ha') by (exists (- a); lia).
    assert (exists c', c = - c' /\ 0 < c') as (c' & -> & Hc') by (exists (- c); lia).
    rewrite (Z.quot_opp_l a'), (Z.quot_opp_l c') by lia.
    rewrite !Z.quot_div_nonneg by lia.
    assert (c' / Zpos d <= a' / Zpos b); [|lia].
    apply div_cross_mono. lia.
  - assert (Z.quot a (Zpos b) <= Z.quot 0 (Zpos b)) by (apply Z.quot_le_mono; lia).
    rewrite Z.quot_0_l in * by lia.
    pose proof (Z.quot_pos c (Zpos d) Hc ltac:(lia)). lia.
  - nia.
  - rewrite !Z.quot_div_nonneg by lia. by apply div_cross_mono.
Qed.

Lemma scale_mono n1 d1 n2 d2 :
  - Zpos d1 <= n1 <= Zpos d1 -> - Zpos d2 <= n2 <= Zpos d2 ->
  n1 * Zpos d2 <= n2 * Zpos d1 ->
  Wav.scale (JS.Fin (n1 # d1)) <= Wav.scale (JS.Fin (n2 # d2)).
Proof.
  intros H1 H2 Hle. rewrite !scale_Fin by done.
  repeat case_decide.
  - apply quot_cross_mono. nia.
  - assert (Z.quot (n1 * 32768) (Zpos d1) <= Z.quot (-16384 * Zpos d1) (Zpos d1))
      by (apply Z.quot_le_mono; lia).
    rewrite Z.quot_mul in * by lia.
    assert (-16383 <= Z.quot (n2 * 32767) (Zpos d2)); [|lia].
    Z.quot_rem_to_equations. nia.
  - nia.
  - apply quot_cross_mono. nia.
Qed.

(** X6.  The conversion is monotone: a larger sample is never stored as a
    smaller integer, also across the change of scale at [-1/2] and across
    the clamp. *)
Theorem sample_monotone (p q : Q) :
  (p <= q)%Q ->
  Wav.sample_int16 (JS.Fin p) <= Wav.sample_int16 (JS.Fin q).
Proof.
  destruct p as [n1 d1], q as [n2 d2]. unfold Qle. cbn. intros Hle.
  unfold Wav.sample_int16. rewrite !clamp_Fin.
  destruct (Qle_bool 1 (n1 # d1)) eqn:A1; unfold Qle_bool in A1; cbn in A1;
    [apply Z.leb_le in A1|apply Z.leb_gt in A1];
    (destruct (Qle_bool (n1 # d1) (-1)) eqn:A2; unfold Qle_bool in A2; cbn in A2;
     [apply Z.leb_le in A2|apply Z.leb_gt in A2]);
    (destruct (Qle_bool 1 (n2 # d2)) eqn:B1; unfold Qle_bool in B1; cbn in B1;
     [apply Z.leb_le in B1|apply Z.leb_gt in B1]);
    (destruct (Qle_bool (n2 # d2) (-1)) eqn:B2; unfold Qle_bool in B2; cbn in B2;
     [apply Z.leb_le in B2|apply Z.leb_gt in B2]);
    try lia; try nia;
    unfold JS.of_Z; cbn [inject_Z]; apply scale_mono; try lia; try nia.
Qed.

Lemma sample_monotone_witness :
  Wav.sample_int16 (JS.Fin (-51 # 100)) <= Wav.sample_int16 (JS.Fin (-49 # 100)).
Proof.
  apply (sample_monotone (-51 # 100) (-49 # 100)). unfold Qle. cbn. lia.
Defined.

(** ** Which sample each stored value comes from *)

(** X8.  Stored sample [j * C + i] of the data chunk is the conversion of
    sample [44 + j] of channel [i]: the data chunk interleaves the
    channels, starting from frame 44 of the buffer. *)
Theorem stored_sample_source (b : AudioBuffer.t) (j i : nat) (ch : list JS.number) :
  (44 + j < AudioBuffer.length b)%nat ->
  AudioBuffer.channelData b !! i = Some ch ->
  exists bytes,
    Wav.encode b = Return bytes
    /\ stored_sample bytes (j * AudioBuffer.numberOfChannels b + i)
       = Wav.sample_int16 (default JS.NaN (ch !! (44 + j)%nat)).
Proof.
  intros Hj Hch. exists (WavLayout.file b). split; [apply encode_spec|].
  pose proof (exported_frame b j Hj) as Hf.
  pose proof (lookup_lt_Some _ _ _ Hch) as Hi.
  unfold AudioBuffer.numberOfChannels in *.
  set (chs := AudioBuffer.channelData b) in *. set (C := length chs) in *.
  unfold stored_sample.
  replace (44 + 2 * (j * C + i))%nat with ((44 + 2 * C * j) + 2 * i)%nat by lia.
  rewrite <- drop_drop, take_drop_commute.
  replace (take (2 * i + 2) (drop (44 + 2 * C * j) (WavLayout.file b)))
    with (take (2 * i + 2) (WavLayout.frame chs (44 + j))).
  2:{ rewrite <- Hf, take_take. f_equal. lia. }
  unfold WavLayout.frame.
  rewrite <- take_drop_commute.
  rewrite (drop_flat_map_blocks _ 2) by (intros; apply length_le_bytes).
  rewrite (drop_S chs ch i Hch). cbn [flat_map].
  rewrite take_app_length' by (by rewrite length_le_bytes).
  apply le_int16_sample.
Qed.

Lemma stored_sample_source_witness :
  exists bytes,
    Wav.encode (AudioBuffer.mk 8000 45
                  [replicate 44 (JS.of_Z 0) ++ [JS.of_Z 1];
                   replicate 44 (JS.of_Z 0) ++ [JS.of_Z (-1)]])
    = Return bytes
    /\ stored_sample bytes 1 = -32768.
Proof.
  destruct (stored_sample_source
              (AudioBuffer.mk 8000 45
                 [replicate 44 (JS.of_Z 0) ++ [JS.of_Z 1];
                  replicate 44 (JS.of_Z 0) ++ [JS.of_Z (-1)]])
              0 1 (replicate 44 (JS.of_Z 0) ++ [JS.of_Z (-1)]))
    as (bytes & Henc & Hs).
  - cbn. lia.
  - reflexivity.
  - exists bytes. split; [exact Henc|exact Hs].
Defined.

(** X9.  The stored samples past the last frame the loop reaches are zero:
    as many frames at the end of the data chunk as the loop skipped at the
    start of the buffer (44, or all of them for a shorter buffer). *)
Theorem stored_tail_zero (b : AudioBuffer.t) (k : nat) :
  ((AudioBuffer.length b - 44) * AudioBuffer.numberOfChannels b <= k)%nat ->
  (k < AudioBuffer.length b * AudioBuffer.numberOfChannels b)%nat ->
  exists bytes,
    Wav.encode b = Return bytes /\ stored_sample bytes k = 0.
Proof.
  intros Hlo Hhi. exists (WavLayout.file b). split; [apply encode_spec|].
  pose proof (exported_tail b) as Ht.
  set (C := AudioBuffer.numberOfChannels b) in *.
  set (L := AudioBuffer.length b) in *.
  unfold stored_sample.
  replace (44 + 2 * k)%nat
    with ((44 + 2 * C * (L - 44)) + 2 * (k - (L - 44) * C))%nat by nia.
  rewrite <- drop_drop, Ht, drop_replicate, take_replicate.
  replace (Nat.min 2 (2 * C * Nat.min 44 L - 2 * (k - (L - 44) * C))) with 2%nat
    by nia.
  reflexivity.
Qed.

Lemma stored_tail_zero_witness :
  exists bytes,
    Wav.encode (mono 8000 [JS.of_Z 1; JS.of_Z 1; JS.of_Z 1]) = Return bytes
    /\ stored_sample bytes 2 = 0.
Proof.
  apply (stored_tail_zero (mono 8000 [JS.of_Z 1; JS.of_Z 1; JS.of_Z 1]) 2);
    cbn; lia.
Defined.

(** ** The name of the downloaded file *)

Lemma string_app_length (s t : string) :
  String.length (s +:+ t) = (String.length s + String.length t)%nat.
Proof. induction s as [|c s IH]; simpl; [done|]. by f_equal. Qed.

Lemma string_app_inj_r (s1 s2 t : string) : s1 +:+ t = s2 +:+ t -> s1 = s2.
Proof.
  revert s2. induction s1 as [|c s1 IH]; intros [|c2 s2] Heq; simpl in Heq.
  - reflexivity.
  - apply (f_equal String.length) in Heq. simpl in Heq.
    rewrite !string_app_length in Heq. simpl in Heq. lia.
  - apply (f_equal String.length) in Heq. simpl in Heq.
    rewrite !string_app_length in Heq. simpl in Heq. lia.
  - injection Heq as -> Heq. f_equal. by apply IH.
Qed.

(** X10.  The download name determines the record's voice and id: two
    records whose downloads carry the same file name have the same voice
    and the same id. *)
Theorem file_name_determines_record (item1 item2 : GeneratedAudio) (d1 d2 : Download) :
  handleDownload item1 = Return (Some d1) ->
  handleDownload item2 = Return (Some d2) ->
  file_name d1 = file_name d2 ->
  voice item1 = voice item2 /\ id item1 = id item2.
Proof.
  unfold handleDownload. intros H1 H2 Hname.
  destruct (audioBuffer item1) as [b1|]; [|discriminate].
  destruct (audioBuffer item2) as [b2|]; [|discriminate].
  rewrite encode_spec in H1, H2.
  injection H1 as <-. injection H2 as <-. cbn [file_name] in Hname.
  apply (String.app_inj "gemini-voice-") in Hname.
  destruct (voice item1), (voice item2); cbn in Hname; try discriminate Hname;
    (split; [reflexivity|]);
    repeat (injection Hname as Hname);
    by apply (string_app_inj_r _ _ ".wav").
Qed.

Lemma file_name_determines_record_witness :
  voice (record_of "a" (Some (mono 8000 []))) = voice (record_of "a" (Some (mono 8000 [JS.NaN])))
  /\ id (record_of "a" (Some (mono 8000 []))) = id (record_of "a" (Some (mono 8000 [JS.NaN]))).
Proof.
  eapply (file_name_determines_record
            (record_of "a" (Some (mono 8000 [])))
            (record_of "a" (Some (mono 8000 [JS.NaN])))).
  - vm_compute. reflexivity.
  - vm_compute. reflexivity.
  - vm_compute. reflexivity.
Defined.

(** ** The player: what every reachable state satisfies *)

Lemma contexts_made_app cs cs' :
  contexts_made (cs ++ cs') = (contexts_made cs + contexts_made cs')%nat.
Proof. unfold contexts_made. by rewrite omap_app, length_app. Qed.

Lemma created_sources_app cs cs' :
  created_sources (cs ++ cs') = created_sources cs ++ created_sources cs'.
Proof. apply omap_app. Qed.

Lemma connected_sources_app cs cs' :
  connected_sources (cs ++ cs') = connected_sources cs ++ connected_sources cs'.
Proof. apply omap_app. Qed.

Lemma started_sources_app cs cs' :
  started_sources (cs ++ cs') = started_sources cs ++ started_sources cs'.
Proof. apply omap_app. Qed.

Local Ltac trace_simpl :=
  rewrite ?contexts_made_app, ?created_sources_app, ?connected_sources_app,
    ?started_sources_app;
  cbn [contexts_made created_sources connected_sources started_sources
       omap list_omap length];
  rewrite ?app_nil_r, ?Nat.add_0_r.

Lemma node_ok_mark_stopped_disconnected ref n nd :
  node_ok ref n nd -> node_ok None n (mark_disconnected (mark_stopped nd)).
Proof.
  intros (H1 & H2 & H3 & _ & _). split; [exact H1|]. split; [exact H2|].
  split; [exact H3|]. split; [discriminate|].
  rewrite playing_mark_disconnected, playing_mark_stopped. discriminate.
Qed.

Lemma sound_stopPlayback st :
  sound st ->
  sound (stopPlayback st) /\ quiet (stopPlayback st) /\ unrouted (stopPlayback st).
Proof.
  intros (Hc & Hok & Hshown & Hcur & Hctx & Hcr & Hcn & Hst).
  pose proof (stopPlayback_consistent st Hc) as Hc'.
  pose proof (stopPlayback_quiet st Hc) as Hq.
  destruct (sourceNodeRef st) as [r|] eqn:Href.
  - destruct Hc as (_ & Hheld & _).
    destruct (Hheld r Href) as (nd & Hnd & Hstarted).
    pose proof (stopPlayback_Some st r nd Href Hnd Hstarted) as Heq.
    assert (Hun : unrouted (stopPlayback st)).
    { intros m nd' Hm. rewrite Heq in Hm. cbn [nodes] in Hm.
      destruct (decide (r = m)) as [->|Hne].
      - rewrite !list_lookup_alter_eq, Hnd in Hm. by injection Hm as <-.
      - rewrite !list_lookup_alter_ne in Hm by done.
        destruct (connected nd') eqn:E; [|done].
        destruct (Hok m nd' Hm) as (_ & _ & _ & Hr & _).
        specialize (Hr E). congruence. }
    split; [|split; [exact Hq|exact Hun]].
    split; [exact Hc'|].
    split.
    { intros m nd' Hm.
      pose proof (Hun m nd' Hm) as Hdis. pose proof (Hq m nd' Hm) as Hnp.
      rewrite Heq in Hm |- *. cbn [nodes sourceNodeRef] in *.
      destruct (decide (r = m)) as [->|Hne].
      - rewrite !list_lookup_alter_eq, Hnd in Hm. injection Hm as <-.
        eapply node_ok_mark_stopped_disconnected. eauto.
      - rewrite !list_lookup_alter_ne in Hm by done.
        destruct (Hok m nd' Hm) as (H1 & H2 & H3 & _ & _).
        split; [exact H1|]. split; [exact H2|]. split; [exact H3|].
        rewrite Hdis, Hnp. split; discriminate. }
    rewrite Heq. cbn [isPlaying currentAudioId calls nodes audioContextRef].
    split; [discriminate|]. split; [split; [discriminate|by intros [? ?]]|].
    rewrite !length_alter. trace_simpl. done.
  - pose proof (stopPlayback_None st Href) as Heq.
    assert (Hun : unrouted (stopPlayback st)).
    { intros m nd' Hm. rewrite Heq in Hm. cbn [nodes] in Hm.
      destruct (connected nd') eqn:E; [|done].
      destruct (Hok m nd' Hm) as (_ & _ & _ & Hr & _).
      specialize (Hr E). congruence. }
    split; [|split; [exact Hq|exact Hun]].
    split; [exact Hc'|].
    split.
    { intros m nd' Hm.
      pose proof (Hun m nd' Hm) as Hdis. pose proof (Hq m nd' Hm) as Hnp.
      rewrite Heq in Hm |- *. cbn [nodes sourceNodeRef] in *.
      destruct (Hok m nd' Hm) as (H1 & H2 & H3 & _ & _).
      split; [exact H1|]. split; [exact H2|]. split; [exact H3|].
      rewrite Hdis, Hnp. split; discriminate. }
    rewrite Heq. cbn [isPlaying currentAudioId calls nodes audioContextRef].
    split; [discriminate|]. split; [split; [discriminate|by intros [? ?]]|].
    done.
Qed.

Lemma getAudioContext_calls st :
  calls (getAudioContext st)
  = calls st ++ match audioContextRef st with
                | None => [NewAudioContext]
                | Some suspended => [Resume]
                | Some _ => []
                end
  /\ is_Some (audioContextRef (getAudioContext st)).
Proof.
  unfold getAudioContext. destruct st as [cur isp ctx an gn ref ns cs].
  destruct ctx as [[| |]|]; cbn; rewrite ?app_nil_r; eauto.
Qed.

Lemma sound_getAudioContext st :
  sound st -> quiet st -> unrouted st ->
  sound (getAudioContext st)
  /\ quiet (getAudioContext st) /\ unrouted (getAudioContext st)
  /\ analyserRef (getAudioContext st) = true
  /\ nodes (getAudioContext st) = nodes st
  /\ sourceNodeRef (getAudioContext st) = sourceNodeRef st
  /\ isPlaying (getAudioContext st) = isPlaying st
  /\ currentAudioId (getAudioContext st) = currentAudioId st.
Proof.
  intros (Hc & Hok & Hshown & Hcur & Hctx & Hcr & Hcn & Hst) Hq Hun.
  pose proof (getAudioContext_consistent st Hc) as Hc'.
  destruct (getAudioContext_spec st (proj2 (proj2 Hc)))
    as (extra & _ & Hnodes & Href & Hcurr & Hisp & Han & _).
  destruct (getAudioContext_calls st) as (Hcalls & Hsome).
  assert (Hs : sound (getAudioContext st)).
  { split; [exact Hc'|]. rewrite Hnodes, Href, Hcurr, Hisp, Hcalls.
    split; [exact Hok|]. split; [exact Hshown|]. split; [exact Hcur|].
    destruct Hsome as [c' Hc'']. rewrite Hc''.
    destruct (audioContextRef st) as [[| |]|]; trace_simpl; repeat split;
      try done; lia. }
  split; [exact Hs|].
  unfold quiet, unrouted. rewrite Hnodes. auto 10.
Qed.

Lemma sound_startPlayback item st : sound st -> sound (startPlayback item st).
Proof.
  intros Hs.
  destruct (sound_stopPlayback st Hs) as (Hs1 & Hq1 & Hun1).
  destruct (sound_getAudioContext _ Hs1 Hq1 Hun1)
    as (Hs2 & Hq2 & Hun2 & Han & Hnodes & Href & Hisp & Hcurr).
  unfold startPlayback.
  destruct (audioBuffer item) as [buf|] eqn:Hbuf; [|exact Hs2].
  pose proof (startPlayback_consistent item st (proj1 Hs)) as Hc.
  unfold startPlayback in Hc. rewrite Hbuf in Hc.
  set (st2 := getAudioContext (stopPlayback st)) in *.
  destruct Hs2 as (_ & Hok & _ & _ & Hctx & Hcr & Hcn & Hst).
  rewrite (new_source_spec buf st2 Han) in Hc |- *.
  split; [exact Hc|].
  cbn [setIsPlaying setCurrentAudioId nodes sourceNodeRef isPlaying
       currentAudioId calls audioContextRef].
  split.
  { intros m nd Hm. apply lookup_snoc_Some in Hm.
    destruct Hm as [[Hlt Hm]|[-> <-]].
    - destruct (Hok m nd Hm) as (H1 & H2 & H3 & _ & _).
      split; [exact H1|]. split; [exact H2|]. split; [exact H3|].
      rewrite (Hun2 m nd Hm), (Hq2 m nd Hm). split; discriminate.
    - repeat split; eauto. }
  split.
  { intros _. exists (length (nodes st2)), (started_source buf).
    split; [reflexivity|]. split; [by apply list_lookup_middle|reflexivity]. }
  split; [split; eauto|].
  trace_simpl. rewrite Hcr, Hcn, Hst.
  split; [exact Hctx|].
  rewrite length_app. cbn [length]. rewrite Nat.add_1_r, seq_S. done.
Qed.

Lemma sound_playAudio item st : sound st -> sound (playAudio item st).
Proof.
  intros Hs. unfold playAudio. destruct (_ && _).
  - by apply sound_stopPlayback.
  - by apply sound_startPlayback.
Qed.

(** On a reachable state the [ended] event of a started source always runs
    the handler: every source has one. *)
Lemma source_ended_sound_eq n nd st :
  sound st -> nodes st !! n = Some nd -> ended nd = false ->
  source_ended n st
  = setCurrentAudioId None (setIsPlaying false (update_node n mark_ended st)).
Proof.
  intros (_ & Hok & _) Hnd He. destruct (Hok n nd Hnd) as (H1 & H2 & _).
  unfold source_ended. by rewrite Hnd, H1, H2, He.
Qed.

Lemma sound_source_ended n st : sound st -> sound (source_ended n st).
Proof.
  intros Hs. pose proof (source_ended_consistent n st (proj1 Hs)) as Hc.
  destruct (nodes st !! n) as [nd|] eqn:Hnd;
    [|unfold source_ended; by rewrite Hnd].
  destruct (ended nd) eqn:He.
  { unfold source_ended. rewrite Hnd, He, andb_false_r. exact Hs. }
  rewrite (source_ended_sound_eq n nd st Hs Hnd He) in Hc |- *.
  destruct Hs as (_ & Hok & _ & _ & Hctx & Hcr & Hcn & Hst).
  split; [exact Hc|].
  cbn [setIsPlaying setCurrentAudioId update_node set_nodes nodes sourceNodeRef
       isPlaying currentAudioId calls audioContextRef].
  split.
  { intros m nd' Hm. destruct (decide (n = m)) as [->|Hne].
    - rewrite list_lookup_alter_eq, Hnd in Hm. injection Hm as <-.
      destruct (Hok m nd Hnd) as (H1 & H2 & H3 & H4 & _).
      split; [exact H1|]. split; [exact H2|]. split; [exact H3|].
      split; [exact H4|]. rewrite playing_mark_ended. discriminate.
    - rewrite list_lookup_alter_ne in Hm by done. eauto. }
  split; [discriminate|]. split; [split; [discriminate|by intros [? ?]]|].
  rewrite length_alter. done.
Qed.

Lemma sound_initial : sound initial.
Proof.
  split; [apply consistent_initial|]. cbn.
  split; [intros n nd Hn; by rewrite lookup_nil in Hn|].
  split; [discriminate|]. split; [split; [discriminate|by intros [? ?]]|].
  done.
Qed.

Lemma sound_step a st : sound st -> sound (step a st).
Proof.
  intros Hs. destruct a as [item|item| |n|s]; cbn [step].
  - by apply sound_playAudio.
  - by apply sound_startPlayback.
  - by apply sound_stopPlayback.
  - by apply sound_source_ended.
  - pose proof (step_consistent (ContextState s) st (proj1 Hs)) as Hc.
    cbn [step] in Hc. destruct (audioContextRef st) eqn:E; [|exact Hs].
    destruct Hs as (_ & Hok & Hshown & Hcur & Hctx & Hrest).
    split; [exact Hc|]. split; [exact Hok|]. split; [exact Hshown|].
    split; [exact Hcur|]. split; [|exact Hrest].
    cbn. by rewrite E in Hctx.
Qed.

Lemma sound_run acts st : sound st -> sound (run acts st).
Proof.
  revert st. induction acts as [|a acts IH]; intros st Hs; [done|].
  cbn. apply IH. by apply sound_step.
Qed.

Lemma playing_nodes_single st n :
  consistent st -> node_playing st n = true -> playing_nodes st = [n].
Proof.
  intros Hc Hn.
  assert (Hin : In n (playing_nodes st)).
  { unfold playing_nodes. apply List.filter_In. split; [|exact Hn].
    apply in_seq. unfold node_playing in Hn.
    destruct (nodes st !! n) as [nd|] eqn:E; [|done].
    apply lookup_lt_Some in E. lia. }
  pose proof (at_most_one_playing st Hc) as Hlen.
  destruct (playing_nodes st) as [|m [|m' rest]]; cbn in *; [done| |lia].
  destruct Hin as [->|[]]. reflexivity.
Qed.

(** X11.  [stopPlayback] is idempotent in every state: a second call
    changes nothing, issues no Web Audio call and cannot throw. *)
Theorem stopPlayback_idempotent (st : App) :
  stopPlayback (stopPlayback st) = stopPlayback st.
Proof.
  destruct (stopPlayback_flags st) as (Hcur & Hisp & Href & _).
  rewrite (stopPlayback_None _ Href).
  destruct (stopPlayback st) as [cur isp ctx an gn ref ns cs].
  cbn in *. by subst.
Qed.

(** X12.  Over any sequence of actions the audio context is made at most
    once, on first use, and is never replaced: [new AudioContext] has been
    called exactly once if [audioContextRef] is set and never otherwise;
    once it is set the analyser exists. *)
Theorem audio_context_made_once (acts : list action) :
  (contexts_made (calls (run acts initial)) <= 1)%nat
  /\ (contexts_made (calls (run acts initial)) = 1%nat
      <-> is_Some (audioContextRef (run acts initial)))
  /\ (is_Some (audioContextRef (run acts initial)) ->
      analyserRef (run acts initial) = true).
Proof.
  destruct (sound_run acts initial sound_initial)
    as ((_ & _ & Han) & _ & _ & _ & Hctx & _).
  rewrite Hctx. destruct (audioContextRef (run acts initial)) eqn:E.
  - split; [lia|]. split; [split; eauto|]. intros _. apply Han. eauto.
  - split; [lia|]. split; [split; [discriminate|by intros [? ?]]|].
    by intros [? ?].
Qed.

(** X13.  In every reachable state a playing source is connected to the
    analyser, and a connected source is the one [sourceNodeRef] holds: two
    sources are never connected at the same time. *)
Theorem one_routed_source (acts : list action) (n m : nat) (nd nd' : SourceNode) :
  nodes (run acts initial) !! n = Some nd ->
  nodes (run acts initial) !! m = Some nd' ->
  (playing nd = true -> connected nd = true)
  /\ (connected nd = true -> sourceNodeRef (run acts initial) = Some n)
  /\ (connected nd = true -> connected nd' = true -> n = m).
Proof.
  intros Hn Hm.
  destruct (sound_run acts initial sound_initial) as (_ & Hok & _).
  destruct (Hok n nd Hn) as (_ & _ & _ & Hr & Hp).
  destruct (Hok m nd' Hm) as (_ & _ & _ & Hr' & _).
  split; [exact Hp|]. split; [exact Hr|].
  intros H1 H2. specialize (Hr H1). specialize (Hr' H2). congruence.
Qed.

Lemma one_routed_source_witness :
  sourceNodeRef (run [Start (record_of "a" (Some (mono 8000 [])))] initial)
  = Some 0%nat.
Proof.
  apply (proj1 (proj2 (one_routed_source
                         [Start (record_of "a" (Some (mono 8000 [])))]
                         0 0 (started_source (mono 8000 []))
                         (started_source (mono 8000 [])) eq_refl eq_refl))).
  reflexivity.
Defined.

(** X14.  In every reachable state [isPlaying] is true exactly when
    [currentAudioId] is set, and when it is true [sourceNodeRef] holds a
    source that plays, the only one playing: the player never shows
    "Playing" while nothing plays. *)
Theorem playing_flag_is_backed (acts : list action) :
  (isPlaying (run acts initial) = true
   <-> is_Some (currentAudioId (run acts initial)))
  /\ (isPlaying (run acts initial) = true ->
      exists n, sourceNodeRef (run acts initial) = Some n
                /\ playing_nodes (run acts initial) = [n]).
Proof.
  destruct (sound_run acts initial sound_initial)
    as (Hc & _ & Hshown & Hcur & _).
  split; [exact Hcur|]. intros Hisp.
  destruct (Hshown Hisp) as (n & nd & Href & Hnd & Hp).
  exists n. split; [exact Href|]. apply playing_nodes_single; [exact Hc|].
  unfold node_playing. by rewrite Hnd.
Qed.

Lemma playing_flag_is_backed_witness :
  exists n,
    sourceNodeRef (run [Toggle (record_of "a" (Some (mono 8000 [])))] initial) = Some n
    /\ playing_nodes (run [Toggle (record_of "a" (Some (mono 8000 [])))] initial) = [n].
Proof.
  apply (proj2 (playing_flag_is_backed
                  [Toggle (record_of "a" (Some (mono 8000 [])))])).
  reflexivity.
Defined.

(** X16.  In every reachable state the sources created so far are numbered
    [0 .. length nodes - 1], and each has been created, connected to the
    analyser and started exactly once, in that order of indices; each has
    been started, has its [onended] handler and carries a buffer. *)
Theorem sources_started_once (acts : list action) :
  created_sources (calls (run acts initial))
  = seq 0 (length (nodes (run acts initial)))
  /\ connected_sources (calls (run acts initial))
     = seq 0 (length (nodes (run acts initial)))
  /\ started_sources (calls (run acts initial))
     = seq 0 (length (nodes (run acts initial)))
  /\ Forall (fun nd => started nd = true /\ onended nd = true
                       /\ is_Some (buffer nd))
            (nodes (run acts initial)).
Proof.
  destruct (sound_run acts initial sound_initial)
    as (_ & Hok & _ & _ & _ & Hcr & Hcn & Hst).
  split; [exact Hcr|]. split; [exact Hcn|]. split; [exact Hst|].
  apply Forall_lookup. intros n nd Hn.
  destruct (Hok n nd Hn) as (H1 & H2 & H3 & _). auto.
Qed.

(** X17.  On a reachable state [stop()] never throws, so the [catch] of
    [stopPlayback] is never entered: when a source is held, exactly
    [stop()] and [disconnect()] are issued on it, and otherwise no call at
    all; afterwards no source plays and none is connected. *)
Theorem stop_never_throws (acts : list action) :
  calls (stopPlayback (run acts initial))
  = calls (run acts initial)
    ++ match sourceNodeRef (run acts initial) with
       | Some n => [SourceStop n; SourceDisconnect n]
       | None => []
       end
  /\ playing_nodes (stopPlayback (run acts initial)) = []
  /\ Forall (fun nd => connected nd = false)
            (nodes (stopPlayback (run acts initial))).
Proof.
  pose proof (sound_run acts initial sound_initial) as Hs.
  destruct (sound_stopPlayback _ Hs) as (_ & Hq & Hun).
  set (st := run acts initial) in *.
  split.
  - destruct (sourceNodeRef st) as [n|] eqn:Href.
    + destruct Hs as ((_ & Hheld & _) & _).
      destruct (Hheld n Href) as (nd & Hnd & Hstarted).
      rewrite (stopPlayback_Some st n nd Href Hnd Hstarted). cbn [calls].
      by rewrite <- app_assoc.
    + rewrite (stopPlayback_None st Href). cbn [calls]. by rewrite app_nil_r.
  - split; [by apply playing_nodes_quiet|].
    apply Forall_lookup. intros n nd Hn. by apply (Hun n nd).
Qed.

(** ** The [ended] event of a superseded source *)

(** The state after [start A; start B] from a reachable state. *)
Lemma start_start_state (A B : GeneratedAudio) (bufA bufB : AudioBuffer.t) st :
  audioBuffer A = Some bufA -> audioBuffer B = Some bufB -> sound st ->
  sound (startPlayback B (startPlayback A st))
  /\ length (nodes (startPlayback B (startPlayback A st))) = S (S (length (nodes st)))
  /\ nodes (startPlayback B (startPlayback A st)) !! length (nodes st)
     = Some (mark_disconnected (mark_stopped (started_source bufA)))
  /\ nodes (startPlayback B (startPlayback A st)) !! S (length (nodes st))
     = Some (started_source bufB)
  /\ isPlaying (startPlayback B (startPlayback A st)) = true
  /\ currentAudioId (startPlayback B (startPlayback A st)) = Some (id B).
Proof.
  intros HA HB Hs.
  pose proof (sound_startPlayback A st Hs) as Hs1.
  pose proof (sound_startPlayback B _ Hs1) as Hs2.
  destruct (startPlayback_Some A bufA st HA (proj1 Hs)) as (Hn1 & Href1 & _).
  destruct (stopPlayback_flags st) as (_ & _ & _ & _ & _ & Hlen0).
  set (st1 := startPlayback A st) in *. set (nA := length (nodes st)) in *.
  assert (HnA : nodes st1 !! nA = Some (started_source bufA)).
  { rewrite Hn1. apply list_lookup_middle. by rewrite Hlen0. }
  assert (Hlen1 : length (nodes st1) = S nA).
  { rewrite Hn1, length_app, Hlen0. cbn. lia. }
  pose proof (stopPlayback_Some st1 nA _ Href1 HnA eq_refl) as Hstop.
  destruct (startPlayback_Some B bufB st1 HB (proj1 Hs1))
    as (Hn2 & _ & Hcur2 & Hisp2 & _).
  destruct (stopPlayback_flags st1) as (_ & _ & _ & _ & _ & Hlen).
  split; [exact Hs2|].
  split; [rewrite Hn2, length_app, Hlen, Hlen1; cbn; lia|].
  split.
  { rewrite Hn2, lookup_app_l by (rewrite Hlen, Hlen1; lia).
    rewrite Hstop. cbn [nodes]. by rewrite !list_lookup_alter_eq, HnA. }
  split; [rewrite Hn2; apply list_lookup_middle; by rewrite Hlen, Hlen1|].
  split; [exact Hisp2|exact Hcur2].
Qed.

(** X15.  After [start A; start B], when the [ended] event of A's stopped
    source is delivered, its handler clears [isPlaying] and
    [currentAudioId] although B's source is still playing; a click on B
    then does not stop it but starts B afresh on a third source. *)
Theorem stale_ended_hides_playback (acts : list action) (A B : GeneratedAudio)
    (bufA bufB : AudioBuffer.t) :
  audioBuffer A = Some bufA ->
  audioBuffer B = Some bufB ->
  playing_nodes
    (run (acts ++ [Start A; Start B; Ended (length (nodes (run acts initial)))])
         initial)
  = [S (length (nodes (run acts initial)))]
  /\ isPlaying
       (run (acts ++ [Start A; Start B; Ended (length (nodes (run acts initial)))])
            initial) = false
  /\ currentAudioId
       (run (acts ++ [Start A; Start B; Ended (length (nodes (run acts initial)))])
            initial) = None
  /\ playing_nodes
       (run (acts ++ [Start A; Start B; Ended (length (nodes (run acts initial)));
                      Toggle B]) initial)
     = [S (S (length (nodes (run acts initial))))].
Proof.
  intros HA HB.
  pose proof (sound_run acts initial sound_initial) as Hs.
  rewrite !run_app. cbn [run fold_left step].
  change (fold_left (fun s a => step a s) acts initial) with (run acts initial).
  set (st := run acts initial) in *. set (nA := length (nodes st)).
  destruct (start_start_state A B bufA bufB st HA HB Hs)
    as (Hs2 & Hlen2 & HnA & HnB & _ & _).
  fold nA in Hlen2, HnA, HnB.
  set (st2 := startPlayback B (startPlayback A st)) in *.
  pose proof (source_ended_sound_eq nA _ st2 Hs2 HnA eq_refl) as Heq.
  pose proof (sound_source_ended nA st2 Hs2) as Hs3.
  set (st3 := source_ended nA st2) in *.
  assert (Hnodes3 : nodes st3 = alter mark_ended nA (nodes st2))
    by (by rewrite Heq).
  assert (Hp3 : playing_nodes st3 = [S nA]).
  { apply playing_nodes_single; [exact (proj1 Hs3)|].
    unfold node_playing. rewrite Hnodes3, list_lookup_alter_ne by lia.
    by rewrite HnB. }
  split; [exact Hp3|]. split; [by rewrite Heq|]. split; [by rewrite Heq|].
  assert (Hact : active B st3 = false).
  { unfold active. rewrite Heq. cbn. by rewrite andb_false_r. }
  unfold playAudio. fold (active B st3). rewrite Hact.
  destruct (startPlayback_Some B bufB st3 HB (proj1 Hs3)) as (Hn4 & _).
  destruct (stopPlayback_flags st3) as (_ & _ & _ & _ & _ & Hlen).
  rewrite (playing_nodes_snoc _ _ _ Hn4 (stopPlayback_quiet st3 (proj1 Hs3)) eq_refl).
  rewrite Hlen, Hnodes3, length_alter, Hlen2. reflexivity.
Qed.

Lemma stale_ended_hides_playback_witness :
  playing_nodes
    (run ([] ++ [Start (record_of "a" (Some (mono 8000 [])));
                 Start (record_of "b" (Some (mono 8000 [])));
                 Ended (length (nodes (run [] initial)))]) initial)
  = [1%nat]
  /\ isPlaying
       (run ([] ++ [Start (record_of "a" (Some (mono 8000 [])));
                    Start (record_of "b" (Some (mono 8000 [])));
                    Ended (length (nodes (run [] initial)))]) initial) = false.
Proof.
  destruct (stale_ended_hides_playback []
              (record_of "a" (Some (mono 8000 [])))
              (record_of "b" (Some (mono 8000 [])))
              (mono 8000 []) (mono 8000 []) eq_refl eq_refl) as (H1 & H2 & _).
  split; [exact H1|exact H2].
Defined.

(** ** The visualizer *)

Lemma tidy_requestAnimationFrame v :
  VisualizerRun.tidy v -> VisualizerRun.tidy (Visualizer.requestAnimationFrame v).
Proof.
  intros (_ & Hn & _). split; [by right|]. cbn. split; [lia|].
  intros r [= <-]. exact Hn.
Qed.

Lemma tidy_draw p ctx data v :
  VisualizerRun.tidy v -> VisualizerRun.tidy (Visualizer.draw p ctx data v).
Proof.
  intros Ht. unfold Visualizer.draw.
  assert (Ht1 : VisualizerRun.tidy
                  {| Visualizer.animationRef := Visualizer.animationRef v;
                     Visualizer.pending := Visualizer.pending v;
                     Visualizer.next_request := Visualizer.next_request v;
                     Visualizer.canvas := Visualizer.Bars data;
                     Visualizer.draws := S (Visualizer.draws v) |}) by exact Ht.
  destruct p; [by apply tidy_requestAnimationFrame|].
  destruct ctx; [exact Ht1|by apply tidy_requestAnimationFrame|exact Ht1].
Qed.

Lemma tidy_step a v : VisualizerRun.tidy v -> VisualizerRun.tidy (VisualizerRun.step a v).
Proof.
  intros Ht. destruct a as [an p ctx data|p ctx data|]; cbn [VisualizerRun.step].
  - unfold Visualizer.effect. destruct an; [by apply tidy_draw|exact Ht].
  - unfold Visualizer.frame. destruct (Visualizer.pending v); [|exact Ht].
    apply tidy_draw. destruct Ht as (_ & Hn & Hr). split; [by left|]. auto.
  - unfold Visualizer.cleanup. destruct (Visualizer.animationRef v) as [r|] eqn:E;
      [|exact Ht].
    case_decide; [exact Ht|]. destruct Ht as (Hp & Hn & Hr).
    split; [|split; [exact Hn|exact Hr]]. cbn. case_decide; [by left|].
    destruct Hp as [Hp|Hp]; [by left|]. rewrite E in Hp. contradiction.
Qed.

Lemma tidy_run acts v : VisualizerRun.tidy v -> VisualizerRun.tidy (VisualizerRun.run acts v).
Proof.
  revert v. induction acts as [|a acts IH]; intros v Ht; [done|].
  cbn. apply IH. by apply tidy_step.
Qed.

Lemma tidy_initial : VisualizerRun.tidy Visualizer.initial.
Proof. split; [by left|]. cbn. split; [lia|]. discriminate. Qed.

Lemma cleanup_pending_none (acts : list VisualizerRun.action) :
  Visualizer.pending (Visualizer.cleanup (VisualizerRun.run acts Visualizer.initial))
  = None.
Proof.
  pose proof (tidy_run acts _ tidy_initial) as (Hp & Hn & Hr).
  set (v := VisualizerRun.run acts Visualizer.initial) in *.
  unfold Visualizer.cleanup. destruct (Visualizer.animationRef v) as [r|] eqn:E.
  - pose proof (Hr r eq_refl). rewrite decide_False by lia. cbn.
    destruct Hp as [Hp|Hp]; rewrite Hp; [done|]. by rewrite decide_True.
  - destruct Hp as [Hp|Hp]; by rewrite Hp.
Qed.

Lemma frames_idle (later : list (bool * AudioContextState * list Z)) w :
  Visualizer.pending w = None ->
  VisualizerRun.run (map (fun o => VisualizerRun.Frame o.1.1 o.1.2 o.2) later) w = w.
Proof.
  intros Hp. induction later as [|o later IH]; [done|].
  cbn [map VisualizerRun.run fold_left VisualizerRun.step].
  unfold Visualizer.frame. rewrite Hp. exact IH.
Qed.

(** X18.  The loop is always cancellable: after any sequence of effects,
    display refreshes and cleanups, running the cleanup leaves no frame
    request outstanding, so an unmounted visualizer never draws again. *)
Theorem cleanup_stops_loop (acts : list VisualizerRun.action)
    (later : list (bool * AudioContextState * list Z)) :
  Visualizer.pending (Visualizer.cleanup (VisualizerRun.run acts Visualizer.initial))
  = None
  /\ VisualizerRun.run (map (fun o => VisualizerRun.Frame o.1.1 o.1.2 o.2) later)
       (Visualizer.cleanup (VisualizerRun.run acts Visualizer.initial))
     = Visualizer.cleanup (VisualizerRun.run acts Visualizer.initial).
Proof.
  split; [apply cleanup_pending_none|].
  apply frames_idle, cleanup_pending_none.
Qed.

Lemma frames_playing (obs : list (AudioContextState * list Z)) :
  forall v,
    is_Some (Visualizer.pending v) ->
    is_Some (Visualizer.pending (Visualizer.frames true obs v))
    /\ Visualizer.draws (Visualizer.frames true obs v)
       = (Visualizer.draws v + length obs)%nat
    /\ Visualizer.canvas (Visualizer.frames true obs v)
       = match last obs with
         | Some o => Visualizer.Bars o.2
         | None => Visualizer.canvas v
         end.
Proof.
  induction obs as [|[ctx data] obs IH]; intros v Hp.
  - cbn. split; [exact Hp|]. split; [lia|done].
  - cbn [Visualizer.frames]. destruct Hp as [r Hr].
    destruct (IH (Visualizer.frame true ctx data v)) as (IH1 & IH2 & IH3).
    { unfold Visualizer.frame. rewrite Hr. cbn. eauto. }
    split; [exact IH1|]. split.
    + rewrite IH2. unfold Visualizer.frame. rewrite Hr. cbn. lia.
    + rewrite IH3. destruct obs as [|o obs'].
      * cbn. unfold Visualizer.frame. by rewrite Hr.
      * rewrite last_cons_cons.
        destruct (last (o :: obs')) eqn:E; [reflexivity|].
        by apply last_None in E.
Qed.

(** X19.  While [isPlaying] is true the loop runs whatever the context
    state: the effect draws once and every display refresh draws again and
    requests the next frame, so after [n] refreshes [draw] has run [n + 1]
    times and the canvas shows the bars of the latest analyser data. *)
Theorem loop_runs_while_playing (data0 : list Z) (ctx0 : AudioContextState)
    (obs : list (AudioContextState * list Z)) :
  is_Some (Visualizer.pending
             (Visualizer.frames true obs
                (Visualizer.effect true true ctx0 data0 Visualizer.initial)))
  /\ Visualizer.draws
       (Visualizer.frames true obs
          (Visualizer.effect true true ctx0 data0 Visualizer.initial))
     = S (length obs)
  /\ Visualizer.canvas
       (Visualizer.frames true obs
          (Visualizer.effect true true ctx0 data0 Visualizer.initial))
     = Visualizer.Bars (default data0 (snd <$> last obs)).
Proof.
  destruct (frames_playing obs
              (Visualizer.effect true true ctx0 data0 Visualizer.initial))
    as (H1 & H2 & H3).
  { cbn. eauto. }
  split; [exact H1|]. split; [rewrite H2; reflexivity|].
  rewrite H3. by destruct (last obs).
Qed.

(** X20.  With [isPlaying] false and the context suspended or closed, the
    effect paints the flat line and requests no frame; later display
    refreshes draw nothing. *)
Theorem loop_stops_when_suspended (ctx : AudioContextState) (data : list Z)
    (acts : list VisualizerRun.action)
    (later : list (bool * AudioContextState * list Z)) :
  ctx <> running ->
  Visualizer.canvas
    (Visualizer.effect true false ctx data
       (Visualizer.cleanup (VisualizerRun.run acts Visualizer.initial)))
  = Visualizer.FlatLine
  /\ Visualizer.pending
       (Visualizer.effect true false ctx data
          (Visualizer.cleanup (VisualizerRun.run acts Visualizer.initial)))
     = None
  /\ VisualizerRun.run (map (fun o => VisualizerRun.Frame o.1.1 o.1.2 o.2) later)
       (Visualizer.effect true false ctx data
          (Visualizer.cleanup (VisualizerRun.run acts Visualizer.initial)))
     = Visualizer.effect true false ctx data
         (Visualizer.cleanup (VisualizerRun.run acts Visualizer.initial)).
Proof.
  intros Hctx.
  pose proof (cleanup_pending_none acts) as Hnone.
  set (v := Visualizer.cleanup (VisualizerRun.run acts Visualizer.initial)) in *.
  assert (Hp : Visualizer.pending (Visualizer.effect true false ctx data v) = None).
  { destruct ctx; [|done|]; cbn; exact Hnone. }
  split; [by destruct ctx|]. split; [exact Hp|].
  by apply frames_idle.
Qed.

Lemma loop_stops_when_suspended_witness :
  Visualizer.canvas
    (Visualizer.effect true false suspended [1; 2]
       (Visualizer.cleanup
          (VisualizerRun.run [VisualizerRun.Effect true true running [3]]
             Visualizer.initial)))
  = Visualizer.FlatLine.
Proof.
  apply (loop_stops_when_suspended suspended [1; 2]
           [VisualizerRun.Effect true true running [3]] []).
  discriminate.
Defined.

(** ** The bars of one frame *)

Lemma bars_lookup (bw h : Q) (dataArray : list Z) :
  forall (x : Q) (i : nat) (b : bar),
    bars bw h x dataArray !! i = Some b ->
    (bar_x b == x + inject_Z (Z.of_nat i) * (bw + 1))%Q /\ bar_w b = bw.
Proof.
  induction dataArray as [|d rest IH]; intros x i b Hb; [done|].
  destruct i as [|i]; cbn [bars] in Hb.
  - injection Hb as <-. cbn [bar_x bar_w]. split; [|reflexivity].
    change (inject_Z (Z.of_nat 0)) with 0%Q. ring.
  - destruct (IH _ i b Hb) as (Hx & Hw). split; [|exact Hw].
    rewrite Hx, Nat2Z.inj_succ. unfold Z.succ. rewrite inject_Z_plus. ring.
Qed.

(** X21.  On the 600-pixel canvas with the 128 bins of the analyser, every
    bar is [375/32] pixels wide and bar [i] starts at [i * 407/32], so
    only the bars of bins 0 to 47 start inside the canvas: those of bins
    48 to 127 are drawn past its right edge, whatever the data. *)
Theorem bars_past_canvas (dataArray : list Z) (i : nat) (b : bar) :
  length dataArray = frequencyBinCount ->
  draw_bars canvas_width canvas_height dataArray !! i = Some b ->
  (bar_x b == inject_Z (Z.of_nat i) * (407 # 32))%Q
  /\ (bar_w b == 375 # 32)%Q
  /\ ((bar_x b < canvas_width)%Q <-> (i <= 47)%nat).
Proof.
  intros Hlen Hb. unfold draw_bars in Hb. rewrite Hlen in Hb.
  destruct (bars_lookup _ _ _ _ _ _ Hb) as (Hx & Hw).
  assert (Hbw : (canvas_width / inject_Z (Z.of_nat frequencyBinCount) * (5 # 2)
                 == 375 # 32)%Q) by reflexivity.
  assert (Hx' : (bar_x b == inject_Z (Z.of_nat i) * (407 # 32))%Q).
  { rewrite Hx, Hbw. ring. }
  split; [exact Hx'|]. split; [rewrite Hw; exact Hbw|].
  rewrite Hx'. unfold Qlt, canvas_width. cbn. lia.
Qed.

Lemma bars_past_canvas_witness :
  exists b,
    draw_bars canvas_width canvas_height (replicate 128 0) !! 48%nat = Some b
    /\ ~ (bar_x b < canvas_width)%Q.
Proof.
  eexists. split; [reflexivity|].
  intros Hlt.
  eapply (bars_past_canvas (replicate 128 0) 48) in Hlt; [lia|reflexivity|reflexivity].
Defined.

(** ** The voice buttons *)

(** X22.  Whatever voice is selected, exactly one button of the selector is
    drawn as selected; it is the button of that voice, and its label is the
    voice's enum value (the string sent as [voiceName]). *)
Theorem one_voice_highlighted (selectedVoice : VoiceName) :
  exists o,
    highlighted selectedVoice = [o]
    /\ vo_id o = selectedVoice
    /\ vo_name o = VoiceName_value selectedVoice.
Proof. destruct selectedVoice; eexists; repeat split. Qed.

(** ** Generation: [handleGenerate] and [generateSpeech] *)

Lemma currentAudioId_startPlayback item st :
  sound st ->
  currentAudioId (startPlayback item st) = None
  \/ currentAudioId (startPlayback item st) = Some (id item).
Proof.
  intros Hs. destruct (audioBuffer item) as [buf|] eqn:Hbuf.
  - right. by destruct (startPlayback_Some item buf st Hbuf (proj1 Hs))
      as (_ & _ & Hcur & _).
  - left. by destruct (startPlayback_None item st Hbuf (proj1 Hs))
      as (_ & _ & Hcur & _).
Qed.

Lemma sound_playAudio_from cur isp item st :
  sound st ->
  sound (playAudio_from cur isp item st)
  /\ (currentAudioId (playAudio_from cur isp item st) = None
      \/ currentAudioId (playAudio_from cur isp item st) = Some (id item)).
Proof.
  intros Hs. unfold playAudio_from. destruct (_ && _).
  - split; [by apply sound_stopPlayback|]. left.
    by destruct (stopPlayback_flags st) as (Hcur & _).
  - split; [by apply sound_startPlayback|by apply currentAudioId_startPlayback].
Qed.

Lemma playAudio_as_closure item st :
  playAudio item st = playAudio_from (currentAudioId st) (isPlaying st) item st.
Proof. reflexivity. Qed.

Lemma currentAudioId_source_ended n st :
  currentAudioId (source_ended n st) = currentAudioId st
  \/ currentAudioId (source_ended n st) = None.
Proof.
  unfold source_ended. destruct (nodes st !! n) as [nd|]; [|by left].
  destruct (started nd && negb (ended nd)); [|by left].
  destruct (onended nd); [by right|by left].
Qed.

Section Generation.

Variable decodeAudio : string -> settled AudioBuffer.t.

Lemma ok_initial : Studio.ok Studio.initial.
Proof.
  split; [apply sound_initial|]. cbn.
  split; [constructor|]. split; [split; [discriminate|by intros [? ?]]|].
  repeat split; discriminate.
Qed.

Lemma ok_set_player p s :
  Studio.ok s -> sound p ->
  (currentAudioId p = None \/ currentAudioId p = currentAudioId (Studio.player s)
   \/ exists item, item ∈ Studio.history s /\ currentAudioId p = Some (id item)) ->
  Studio.ok (Studio.set_player p s).
Proof.
  intros (Hs & Hbuf & Hgen & Hg & Hcur & Hgc) Hp Hid.
  split; [exact Hp|]. cbn.
  split; [exact Hbuf|]. split; [exact Hgen|]. split; [exact Hg|].
  split; [|exact Hgc].
  intros i Hi. destruct Hid as [Hid|[Hid|(item & Hin & Hid)]].
  - congruence.
  - apply Hcur. congruence.
  - rewrite Hid in Hi. injection Hi as <-. by apply list_elem_of_fmap_2.
Qed.

Lemma ok_step a s : Studio.ok s -> Studio.ok (Studio.step decodeAudio a s).
Proof.
  intros Hok. pose proof Hok as (Hs & Hbuf & Hgen & Hg & Hcur & Hgc).
  destruct a as [value|v| |response newId now|i|i|n|c]; cbn [Studio.step].
  - destruct (Studio.isGenerating s) eqn:E; [exact Hok|].
    assert (Studio.awaiting s = None) as Hnone.
    { destruct (Studio.awaiting s) eqn:E2; [|done].
      assert (is_Some (Some g)) as H%Hgen by eauto. congruence. }
    split; [exact Hs|]. cbn. rewrite ?E, Hnone.
    split; [exact Hbuf|]. split; [split; [discriminate|by intros [? ?]]|].
    split; [discriminate|]. split; [exact Hcur|discriminate].
  - destruct (Studio.isGenerating s) eqn:E; [exact Hok|].
    assert (Studio.awaiting s = None) as Hnone.
    { destruct (Studio.awaiting s) eqn:E2; [|done].
      assert (is_Some (Some g)) as H%Hgen by eauto. congruence. }
    split; [exact Hs|]. cbn. rewrite ?E, Hnone.
    split; [exact Hbuf|]. split; [split; [discriminate|by intros [? ?]]|].
    split; [discriminate|]. split; [exact Hcur|discriminate].
  - destruct (Studio.isGenerating s || blank (Studio.inputText s)) eqn:E;
      [exact Hok|].
    apply orb_false_elim in E as (_ & Hblank).
    unfold Studio.handleGenerate. rewrite Hblank.
    destruct (sound_stopPlayback _ Hs) as (Hs1 & Hq1 & Hun1).
    destruct (sound_getAudioContext _ Hs1 Hq1 Hun1)
      as (Hs2 & _ & _ & _ & _ & _ & _ & Hcur2).
    destruct (stopPlayback_flags (Studio.player s)) as (Hcur1 & _).
    split; [exact Hs2|]. cbn.
    split; [exact Hbuf|]. split; [split; eauto|].
    split; [intros g [= <-]; cbn; auto|].
    split; [intros i Hi; congruence|].
    intros g i [= <-]. cbn. apply Hcur.
  - destruct (Studio.awaiting s) as [g|] eqn:Hw; [|exact Hok].
    unfold Studio.handleGenerate_settled. rewrite Hw.
    destruct (generateSpeech decodeAudio _ _ response) as [buf|message].
    + set (newItem := {| id := newId; text := Studio.g_text g;
                         voice := Studio.g_voice g; timestamp := now;
                         audioBuffer := Some buf; duration := duration_of buf |}).
      destruct (sound_playAudio_from (Studio.g_currentAudioId g)
                  (Studio.g_isPlaying g) newItem _ Hs) as (Hs' & Hcur').
      split; [exact Hs'|]. cbn.
      split; [constructor; [cbn; eauto|exact Hbuf]|].
      split; [split; [discriminate|by intros [? ?]]|].
      split; [discriminate|]. split; [|discriminate].
      intros i Hi. destruct Hcur' as [Hcur'|Hcur']; [congruence|].
      rewrite Hcur' in Hi. injection Hi as <-. cbn. left.
    + split; [exact Hs|]. cbn.
      split; [exact Hbuf|]. split; [split; [discriminate|by intros [? ?]]|].
      split; [discriminate|]. split; [exact Hcur|discriminate].
  - destruct (Studio.history s !! i) as [item|] eqn:Hi; [|exact Hok].
    apply ok_set_player; [exact Hok|by apply sound_playAudio|].
    rewrite playAudio_as_closure.
    destruct (sound_playAudio_from (currentAudioId (Studio.player s))
                (isPlaying (Studio.player s)) item _ Hs) as (_ & [H|H]);
      [by left|].
    right. right. exists item. split; [|exact H].
    by eapply list_elem_of_lookup_2.
  - exact Hok.
  - apply ok_set_player; [exact Hok|by apply sound_source_ended|].
    destruct (currentAudioId_source_ended n (Studio.player s)) as [H|H]; auto.
  - apply ok_set_player; [exact Hok|by apply sound_step|].
    right. left. cbn [step]. by destruct (audioContextRef (Studio.player s)).
Qed.

Lemma ok_run acts s : Studio.ok s -> Studio.ok (Studio.run decodeAudio acts s).
Proof.
  revert s. induction acts as [|a acts IH]; intros s Hok; [done|].
  cbn. apply IH. by apply ok_step.
Qed.

End Generation.

Section GenerationProperties.

Variable decodeAudio : string -> settled AudioBuffer.t.


(** X24.  When a generation resolves with a buffer and a fresh id, the new
    record, with the text and voice of the click and that buffer, is put
    at the head of the history, [isGenerating] is cleared, and the record
    is played at once: its source is new, carries the buffer and is the
    only one playing, and the record is shown as playing. *)
Theorem generation_resolved (acts : list Studio.action) (g : Studio.generation)
    (response : api_response) (buf : AudioBuffer.t) (newId : string) (now : Z) :
  Studio.awaiting (Studio.run decodeAudio acts Studio.initial) = Some g ->
  generateSpeech decodeAudio (Studio.g_text g) (Studio.g_voice g) response
  = Resolved buf ->
  newId ∉ map id (Studio.history (Studio.run decodeAudio acts Studio.initial)) ->
  Studio.history
    (Studio.run decodeAudio (acts ++ [Studio.Settle response newId now]) Studio.initial)
  = {| id := newId; text := Studio.g_text g; voice := Studio.g_voice g;
       timestamp := now; audioBuffer := Some buf; duration := duration_of buf |}
    :: Studio.history (Studio.run decodeAudio acts Studio.initial)
  /\ Studio.isGenerating
       (Studio.run decodeAudio (acts ++ [Studio.Settle response newId now])
          Studio.initial) = false
  /\ isPlaying
       (Studio.player
          (Studio.run decodeAudio (acts ++ [Studio.Settle response newId now])
             Studio.initial)) = true
  /\ currentAudioId
       (Studio.player
          (Studio.run decodeAudio (acts ++ [Studio.Settle response newId now])
             Studio.initial)) = Some newId
  /\ playing_nodes
       (Studio.player
          (Studio.run decodeAudio (acts ++ [Studio.Settle response newId now])
             Studio.initial))
     = [length (nodes (Studio.player (Studio.run decodeAudio acts Studio.initial)))]
  /\ nodes
       (Studio.player
          (Studio.run decodeAudio (acts ++ [Studio.Settle response newId now])
             Studio.initial))
       !! length (nodes (Studio.player (Studio.run decodeAudio acts Studio.initial)))
     = Some (started_source buf).
Proof.
  intros Hw Hres Hfresh.
  destruct (ok_run decodeAudio acts _ ok_initial) as (Hs & _ & _ & _ & _ & Hgc).
  unfold Studio.run. rewrite fold_left_app. cbn [fold_left Studio.step].
  fold (Studio.run decodeAudio acts Studio.initial).
  set (s := Studio.run decodeAudio acts Studio.initial) in *.
  rewrite Hw, Hres. unfold Studio.handleGenerate_settled. rewrite Hw.
  cbn [Studio.history Studio.isGenerating Studio.player].
  split; [reflexivity|]. split; [reflexivity|].
  set (newItem := {| id := newId; text := Studio.g_text g;
                     voice := Studio.g_voice g; timestamp := now;
                     audioBuffer := Some buf; duration := duration_of buf |}).
  assert (Hstart : playAudio_from (Studio.g_currentAudioId g) (Studio.g_isPlaying g)
                     newItem (Studio.player s)
                   = startPlayback newItem (Studio.player s)).
  { unfold playAudio_from. rewrite bool_decide_eq_false_2; [done|].
    intros Heq. apply Hfresh. by apply (Hgc g newId). }
  rewrite Hstart.
  destruct (startPlayback_Some newItem buf _ eq_refl (proj1 Hs))
    as (Hnodes & _ & Hcur & Hisp & _).
  destruct (stopPlayback_flags (Studio.player s)) as (_ & _ & _ & _ & _ & Hlen).
  split; [exact Hisp|]. split; [exact Hcur|]. split.
  - rewrite (playing_nodes_snoc _ _ _ Hnodes
               (stopPlayback_quiet _ (proj1 Hs)) eq_refl).
    by rewrite Hlen.
  - rewrite Hnodes. by apply list_lookup_middle.
Qed.

(** X25.  When a generation is rejected, the history and the player are
    left as they are, [isGenerating] is cleared and [error] is set to a
    non-empty message: the rejection's own, or the default one when that
    is empty. *)
Theorem generation_rejected (acts : list Studio.action) (g : Studio.generation)
    (response : api_response) (message : string) (newId : string) (now : Z) :
  Studio.awaiting (Studio.run decodeAudio acts Studio.initial) = Some g ->
  generateSpeech decodeAudio (Studio.g_text g) (Studio.g_voice g) response
  = Rejected message ->
  Studio.history
    (Studio.run decodeAudio (acts ++ [Studio.Settle response newId now]) Studio.initial)
  = Studio.history (Studio.run decodeAudio acts Studio.initial)
  /\ Studio.player
       (Studio.run decodeAudio (acts ++ [Studio.Settle response newId now])
          Studio.initial)
     = Studio.player (Studio.run decodeAudio acts Studio.initial)
  /\ Studio.isGenerating
       (Studio.run decodeAudio (acts ++ [Studio.Settle response newId now])
          Studio.initial) = false
  /\ exists shown,
       Studio.error
         (Studio.run decodeAudio (acts ++ [Studio.Settle response newId now])
            Studio.initial) = Some shown
       /\ shown <> ""
       /\ (message <> "" -> shown = message).
Proof.
  intros Hw Hres.
  unfold Studio.run. rewrite fold_left_app. cbn [fold_left Studio.step].
  fold (Studio.run decodeAudio acts Studio.initial).
  set (s := Studio.run decodeAudio acts Studio.initial) in *.
  rewrite Hw, Hres. unfold Studio.handleGenerate_settled. rewrite Hw.
  cbn [Studio.history Studio.isGenerating Studio.player Studio.error].
  split; [reflexivity|]. split; [reflexivity|]. split; [reflexivity|].
  eexists. split; [reflexivity|]. case_bool_decide; split; try done.
Qed.

(** X26.  Every record of the history carries a buffer, in every reachable
    state: its download always produces a file, and a click on its play
    button, unless it is the record shown as playing, always starts a
    source.  The null-buffer returns of [playAudio] and [handleDownload]
    are never taken for a record the page lists. *)
Theorem history_records_have_buffers (acts : list Studio.action) (i : nat)
    (item : GeneratedAudio) :
  Studio.history (Studio.run decodeAudio acts Studio.initial) !! i = Some item ->
  is_Some (audioBuffer item)
  /\ (exists d, handleDownload item = Return (Some d))
  /\ (active item (Studio.player (Studio.run decodeAudio acts Studio.initial)) = false ->
      isPlaying
        (Studio.player
           (Studio.run decodeAudio (acts ++ [Studio.ClickPlay i]) Studio.initial))
      = true).
Proof.
  intros Hi.
  destruct (ok_run decodeAudio acts _ ok_initial) as (Hs & Hbuf & _).
  unfold Studio.run at 2. rewrite fold_left_app. cbn [fold_left Studio.step].
  fold (Studio.run decodeAudio acts Studio.initial).
  set (s := Studio.run decodeAudio acts Studio.initial) in *.
  rewrite Hi. cbn [Studio.set_player Studio.player].
  pose proof (proj1 (Forall_lookup _ _) Hbuf i item Hi) as [buf Hb].
  split; [eauto|]. split.
  - unfold handleDownload. rewrite Hb, encode_spec. eauto.
  - intros Hact. unfold playAudio. fold (active item (Studio.player s)).
    rewrite Hact.
    by destruct (startPlayback_Some item buf _ Hb (proj1 Hs))
      as (_ & _ & _ & Hisp & _).
Qed.

(** X27.  In every reachable state [currentAudioId], when set, is the id
    of a record of the history: the "Now Playing" lookup
    [history.find(h => h.id === currentAudioId)] always finds one. *)
Theorem now_playing_is_listed (acts : list Studio.action) (playingId : string) :
  currentAudioId (Studio.player (Studio.run decodeAudio acts Studio.initial))
  = Some playingId ->
  exists item,
    item ∈ Studio.history (Studio.run decodeAudio acts Studio.initial)
    /\ id item = playingId.
Proof.
  intros Hcur.
  destruct (ok_run decodeAudio acts _ ok_initial) as (_ & _ & _ & _ & Hin & _).
  specialize (Hin playingId Hcur). apply list_elem_of_fmap in Hin.
  destruct Hin as (item & -> & Hitem). eauto.
Qed.

End GenerationProperties.


Lemma generation_resolved_witness :
  currentAudioId
    (Studio.player
       (Studio.run (decode_to (mono 24000 []))
          ([Studio.TypeText "hi"; Studio.ClickGenerate]
           ++ [Studio.Settle (ApiData (Some "AAAA")) "x1" 0])
          Studio.initial))
  = Some "x1".
Proof.
  destruct (generation_resolved (decode_to (mono 24000 []))
              [Studio.TypeText "hi"; Studio.ClickGenerate]
              (first_generation "hi") (ApiData (Some "AAAA"))
              (mono 24000 []) "x1" 0)
    as (_ & _ & _ & H & _).
  - vm_compute. reflexivity.
  - vm_compute. reflexivity.
  - cbn. apply not_elem_of_nil.
  - exact H.
Defined.

Lemma generation_rejected_witness :
  exists shown,
    Studio.error
      (Studio.run (decode_to (mono 24000 []))
         ([Studio.TypeText "hi"; Studio.ClickGenerate]
          ++ [Studio.Settle (ApiFailure "") "x1" 0])
         Studio.initial)
    = Some shown
    /\ shown <> "".
Proof.
  destruct (generation_rejected (decode_to (mono 24000 []))
              [Studio.TypeText "hi"; Studio.ClickGenerate]
              (first_generation "hi") (ApiFailure "") "" "x1" 0)
    as (_ & _ & _ & shown & H1 & H2 & _).
  - vm_compute. reflexivity.
  - vm_compute. reflexivity.
  - exists shown. split; [exact H1|exact H2].
Defined.

Lemma history_records_have_buffers_witness :
  exists d,
    handleDownload
      {| id := "x1"; text := "hi"; voice := Kore; timestamp := 0;
         audioBuffer := Some (mono 24000 []);
         duration := duration_of (mono 24000 []) |}
    = Return (Some d).
Proof.
  destruct (history_records_have_buffers (decode_to (mono 24000 []))
              [Studio.TypeText "hi"; Studio.ClickGenerate;
               Studio.Settle (ApiData (Some "AAAA")) "x1" 0]
              0
              {| id := "x1"; text := "hi"; voice := Kore; timestamp := 0;
                 audioBuffer := Some (mono 24000 []);
                 duration := duration_of (mono 24000 []) |})
    as (_ & H & _).
  - vm_compute. reflexivity.
  - exact H.
Defined.

Lemma now_playing_is_listed_witness :
  exists item,
    item ∈ Studio.history
             (Studio.run (decode_to (mono 24000 []))
                [Studio.TypeText "hi"; Studio.ClickGenerate;
                 Studio.Settle (ApiData (Some "AAAA")) "x1" 0]
                Studio.initial)
    /\ id item = "x1".
Proof.
  apply (now_playing_is_listed (decode_to (mono 24000 []))
           [Studio.TypeText "hi"; Studio.ClickGenerate;
            Studio.Settle (ApiData (Some "AAAA")) "x1" 0] "x1").
  vm_compute. reflexivity.
Defined.

(** ** More on the exported file *)

(** X28.  For every buffer, also one too large for the header, each header
    field holds its value modulo the width of the field: the RIFF length
    and the data length modulo [2 ^ 32], the channel count and the block
    align modulo [2 ^ 16], the sample rate and the byte rate modulo
    [2 ^ 32]. *)
Theorem header_fields_wrap (b : AudioBuffer.t) :
  exists bytes,
    Wav.encode b = Return bytes
    /\ field bytes 4 4
       = (Z.of_nat (AudioBuffer.length b * AudioBuffer.numberOfChannels b * 2 + 44) - 8)
         mod 2 ^ 32
    /\ field bytes 22 2 = Z.of_nat (AudioBuffer.numberOfChannels b) mod 2 ^ 16
    /\ field bytes 24 4 = AudioBuffer.sampleRate b mod 2 ^ 32
    /\ field bytes 28 4
       = (AudioBuffer.sampleRate b * 2 * Z.of_nat (AudioBuffer.numberOfChannels b))
         mod 2 ^ 32
    /\ field bytes 32 2 = (Z.of_nat (AudioBuffer.numberOfChannels b) * 2) mod 2 ^ 16
    /\ field bytes 40 4
       = (Z.of_nat (AudioBuffer.length b * AudioBuffer.numberOfChannels b * 2 + 44) - 44)
         mod 2 ^ 32.
Proof.
  exists (WavLayout.file b). split; [apply encode_spec|].
  destruct (file_fields b) as (F4 & F22 & F24 & F28 & F32 & _ & F40).
  split; [exact F4|]. split; [exact F22|]. split; [exact F24|].
  split; [exact F28|]. split; [exact F32|].
  rewrite F40. f_equal. lia.
Qed.

Lemma frame_ext chs1 chs2 p :
  Forall2 (fun c1 c2 : list JS.number => drop 44 c1 = drop 44 c2) chs1 chs2 ->
  (44 <= p)%nat ->
  WavLayout.frame chs1 p = WavLayout.frame chs2 p.
Proof.
  intros Hall Hp. unfold WavLayout.frame.
  induction Hall as [|c1 c2 r1 r2 Hc _ IH]; [done|].
  cbn [flat_map]. rewrite IH. f_equal.
  replace p with (44 + (p - 44))%nat by lia.
  by rewrite <- !lookup_drop, Hc.
Qed.

Lemma frames_ext chs1 chs2 n :
  Forall2 (fun c1 c2 : list JS.number => drop 44 c1 = drop 44 c2) chs1 chs2 ->
  forall start, (44 <= start)%nat ->
    flat_map (WavLayout.frame chs1) (seq start n)
    = flat_map (WavLayout.frame chs2) (seq start n).
Proof.
  intros Hall. induction n as [|n IH]; intros start Hs; [done|].
  cbn [seq flat_map]. rewrite (frame_ext chs1 chs2 start Hall Hs).
  f_equal. apply IH. lia.
Qed.

(** X29.  The exported file does not depend on the first 44 sample frames:
    two buffers of the same sample rate and length whose channels agree
    from sample 44 on are exported to the same bytes. *)
Theorem first_frames_ignored (b1 b2 : AudioBuffer.t) :
  AudioBuffer.sampleRate b1 = AudioBuffer.sampleRate b2 ->
  AudioBuffer.length b1 = AudioBuffer.length b2 ->
  Forall2 (fun c1 c2 : list JS.number => drop 44 c1 = drop 44 c2)
          (AudioBuffer.channelData b1) (AudioBuffer.channelData b2) ->
  Wav.encode b1 = Wav.encode b2.
Proof.
  intros Hrate Hlen Hall. rewrite !encode_spec. f_equal.
  pose proof (Forall2_length _ _ _ Hall) as HC.
  unfold WavLayout.file, WavLayout.data, AudioBuffer.numberOfChannels.
  rewrite Hrate, Hlen, HC.
  by rewrite (frames_ext _ _ _ Hall 44%nat).
Qed.

Lemma first_frames_ignored_witness :
  Wav.encode (mono 8000 (replicate 44 (JS.of_Z 1) ++ [JS.Fin (1 # 2)]))
  = Wav.encode (mono 8000 (replicate 44 (JS.of_Z (-1)) ++ [JS.Fin (1 # 2)])).
Proof.
  apply first_frames_ignored.
  - reflexivity.
  - reflexivity.
  - repeat constructor.
Defined.
